(** * A mixture-of-softmaxes recurrent language model: [RNNModel] of model.py

    Shallow embedding of [RNNModel.__init__], [RNNModel.init_weights],
    [RNNModel.forward] and [RNNModel.init_hidden].

    Tensors are contiguous row-major arrays: a shape and the flat list of
    their elements.  Elements are real numbers: the arithmetic of the model
    is the mathematical one, rounding of the floating-point backend is not
    part of it.  Python exceptions are the left summand of [result].
    Parameter tensors live in a heap and modules hold their addresses, so
    that two modules can share one tensor. *)

From Stdlib Require Import Reals Lra Lia ZArith String.
From stdpp Require Import base option list.

#[local] Open Scope Z_scope.
#[local] Open Scope nat_scope.

(** ** Exceptions and the two monads *)

Inductive exn :=
| RuntimeError       (* raised by the tensor library: shapes, sizes, allocation *)
| IndexError         (* a Python list or a tensor dimension indexed out of range *)
| ZeroDivisionError  (* [1.0 / math.sqrt(0)] in a reset_parameters *)
| ValueError.        (* only raise in model.py is commented out: never raised *)

Definition result (A : Type) : Type := exn + A.

Definition raise {A : Type} (e : exn) : result A := inl e.

#[global] Instance result_ret : MRet result := fun A x => inr x.
#[global] Instance result_bind : MBind result :=
  fun A B f m => match m with inl e => inl e | inr x => f x end.
#[global] Instance result_fmap : FMap result :=
  fun A B f m => match m with inl e => inl e | inr x => inr (f x) end.

(** State and exceptions: a raised exception abandons the computation. *)
Definition ST (S A : Type) : Type := S -> result (A * S).

#[global] Instance ST_ret {S} : MRet (ST S) := fun A x s => inr (x, s).
#[global] Instance ST_bind {S} : MBind (ST S) :=
  fun A B f m s => match m s with inl e => inl e | inr (x, s') => f x s' end.

#[global] Instance ST_fmap {S} : FMap (ST S) :=
  fun A B f m s => match m s with inl e => inl e | inr (x, s') => inr (f x, s') end.

Definition get {S} : ST S S := fun s => inr (s, s).
Definition modify {S} (f : S -> S) : ST S unit := fun s => inr (tt, f s).
Definition lift {S A} (r : result A) : ST S A :=
  fun s => match r with inl e => inl e | inr x => inr (x, s) end.

(** ** Tensors *)

Record tensor := Tensor { shape : list nat; data : list R }.

(** [torch.LongTensor]: the token ids. *)
Record ltensor := LTensor { lshape : list nat; ldata : list Z }.

Definition numel (sh : list nat) : nat := foldr Nat.mul 1 sh.

Definition wf (t : tensor) : Prop := length (data t) = numel (shape t).

(** [n] consecutive chunks of [k] elements. *)
Definition chunks {A} (n k : nat) (l : list A) : list (list A) :=
  reshape (replicate n k) l.

(** [t.size(i)] *)
Definition size (sh : list nat) (i : nat) : result nat :=
  match sh !! i with Some d => mret d | None => raise IndexError end.

(** A Python int used as a dimension. *)
Definition dim_of (z : Z) : result nat :=
  if (z <? 0)%Z then raise RuntimeError else mret (Z.to_nat z).

(** [t.view(-1, d1, ..., dk)]: the first dimension is inferred. *)
Definition view_infer (t : tensor) (rest : list Z) : result tensor :=
  ds ← mapM (M:=result) dim_of rest;
  let p := numel ds in
  let n := numel (shape t) in
  if p =? 0 then raise RuntimeError
  else if n mod p =? 0 then mret (Tensor (n / p :: ds) (data t))
  else raise RuntimeError.

Definition last_dim (sh : list nat) : nat := List.last sh 1.
Definition lead_dims (sh : list nat) : list nat := removelast sh.

Definition sum_R (l : list R) : R := foldr Rplus 0%R l.

Definition dot (a b : list R) : R := sum_R (zip_with Rmult a b).

(** One row through [x W^T + b]. *)
Definition affine (W : list (list R)) (b : list R) (x : list R) : list R :=
  zip_with (fun w bj => (dot w x + bj)%R) W b.

(** [F.linear(x, W, b)], applied along the last axis. *)
Definition F_linear (x W : tensor) (b : option tensor) : result tensor :=
  match shape W with
  | [out; inp] =>
      if decide (shape x <> [] /\ last_dim (shape x) = inp) then
        let Wr := chunks out inp (data W) in
        let bs := match b with Some bt => data bt | None => replicate out 0%R end in
        mret (Tensor (lead_dims (shape x) ++ [out])
                (concat (affine Wr bs <$> chunks (numel (lead_dims (shape x))) inp (data x))))
      else raise RuntimeError
  | _ => raise RuntimeError
  end.

Definition tmap (f : R -> R) (t : tensor) : tensor :=
  Tensor (shape t) (f <$> data t).

Definition softmax_row (r : list R) : list R :=
  let z := sum_R (exp <$> r) in (fun x => (exp x / z)%R) <$> r.

(** [F.softmax(t, -1)] *)
Definition softmax_last (t : tensor) : tensor :=
  Tensor (shape t)
    (concat (softmax_row <$> chunks (numel (lead_dims (shape t))) (last_dim (shape t)) (data t))).

(** [t.unsqueeze(i)] *)
Definition unsqueeze (t : tensor) (i : nat) : result tensor :=
  if i <=? length (shape t)
  then mret (Tensor (take i (shape t) ++ 1 :: drop i (shape t)) (data t))
  else raise IndexError.

(** Expansion of the singleton dimensions of [src] to [dst], on the flat data. *)
Fixpoint expand_data (src dst : list nat) (d : list R) : result (list R) :=
  match src, dst with
  | [], [] => mret d
  | a :: src', b :: dst' =>
      if a =? b then
        rs ← mapM (M:=result) (expand_data src' dst') (chunks a (numel src') d);
        mret (concat rs)
      else if a =? 1 then
        e ← expand_data src' dst' d;
        mret (concat (replicate b e))
      else raise RuntimeError
  | _, _ => raise RuntimeError
  end.

(** [t.expand_as(u)]: missing leading dimensions count as 1. *)
Definition expand_as (t u : tensor) : result tensor :=
  if length (shape t) <=? length (shape u) then
    let src := replicate (length (shape u) - length (shape t)) 1 ++ shape t in
    d ← expand_data src (shape u) (data t);
    mret (Tensor (shape u) d)
  else raise RuntimeError.

(** [a * b].  In forward both operands have the same shape (the second is
    made so by [expand_as]); operands of different shapes are refused here. *)
Definition mul (a b : tensor) : result tensor :=
  if decide (shape a = shape b)
  then mret (Tensor (shape a) (zip_with Rmult (data a) (data b)))
  else raise RuntimeError.

Definition vsum (n : nat) (rs : list (list R)) : list R :=
  foldr (zip_with Rplus) (replicate n 0%R) rs.

(** [t.sum(i)] *)
Definition sum_dim (t : tensor) (i : nat) : result tensor :=
  match shape t !! i with
  | Some k =>
      let pre := take i (shape t) in
      let post := drop (S i) (shape t) in
      mret (Tensor (pre ++ post)
              (concat ((fun blk => vsum (numel post) (chunks k (numel post) blk))
                         <$> chunks (numel pre) (k * numel post) (data t))))
  | None => raise IndexError
  end.

(** [torch.log(t.add_(eps))] *)
Definition log_add (eps : R) (t : tensor) : tensor :=
  tmap (fun p => ln (p + eps)) t.

Definition zeros (sh : list nat) : tensor := Tensor sh (replicate (numel sh) 0%R).

(** ** Parameters, modules and what model.py imports *)

(** Parameter tensors are heap cells; a module holds addresses.  Assigning
    one module's parameter to another module copies the address. *)
Abbreviation loc := nat (only parsing).
Abbreviation heap := (list tensor) (only parsing).

Definition deref (h : heap) (l : loc) : result tensor :=
  match h !! l with Some t => mret t | None => raise RuntimeError end.

(** [nn.Embedding] *)
Record Embedding := mkEmbedding {
  num_embeddings : nat;
  embedding_dim : nat;
  emb_weight : loc }.

(** [nn.Linear] *)
Record Linear := mkLinear {
  in_features : nat;
  out_features : nat;
  lin_weight : loc;
  lin_bias : option loc }.

(** An element of [self.rnns]: a one-layer [nn.LSTM], wrapped in [WeightDrop]
    when [weight_drop] is set.  [rnn_mc_eval] is the attribute that forward
    installs on the object; it does not exist before the first forward. *)
Record Recurrent := mkRecurrent {
  input_size : nat;
  hidden_size : nat;
  weight_ih : loc;
  weight_hh : loc;
  bias_ih : loc;
  bias_hh : loc;
  weight_drop : option R;
  rnn_mc_eval : option bool }.

Definition set_rnn_mc_eval (r : Recurrent) (v : bool) : Recurrent :=
  mkRecurrent (input_size r) (hidden_size r) (weight_ih r) (weight_hh r)
    (bias_ih r) (bias_hh r) (weight_drop r) (Some v).

(** The hidden state of one layer: [(h, c)]. *)
Definition hpair : Type := tensor * tensor.

(** The random generator of the tensor library, and the three modules that
    model.py imports from files of the repository that are not part of the
    sources at hand ([embed_regularize.embedded_dropout],
    [locked_dropout.MyLockedDropout], [weight_drop.WeightDrop] around
    [nn.LSTM]).  They are operations of this interface; each takes the
    [training] flag of the module tree and the generator. *)
Class Imports := {
  G : Type;
  rand : G -> (nat -> R) * G;
  randn : G -> (nat -> R) * G;
  embedded_dropout :
    heap -> Embedding -> ltensor -> R -> bool -> bool -> G -> result (tensor * G);
  lockdrop : bool -> tensor -> R -> bool -> G -> result (tensor * G);
  rnn_forward :
    bool -> heap -> Recurrent -> tensor -> hpair -> G -> result (tensor * hpair * G) }.

Record Args := mkArgs {
  a_rnn_type : string;
  a_ntoken : Z;
  a_ninp : Z;
  a_nhid : Z;
  a_nhidlast : Z;
  a_nlayers : Z;
  a_dropout : R;
  a_dropouth : R;
  a_dropouti : R;
  a_dropoute : R;
  a_wdrop : R;
  a_tie_weights : bool;
  a_ldropout : R;
  a_n_experts : Z }.

Record RNNModel := mkRNNModel {
  training : bool;
  use_dropout : bool;
  encoder : Embedding;
  rnns : list Recurrent;
  prior : Linear;
  latent : Linear;         (* nn.Sequential(nn.Linear, nn.Tanh()) *)
  decoder : Linear;
  rnn_type : string;
  ninp : Z;
  nhid : Z;
  nhidlast : Z;
  nlayers : Z;
  dropout : R;
  dropouti : R;
  dropouth : R;
  dropoute : R;
  ldropout : R;
  dropoutl : R;
  n_experts : Z;
  ntoken : Z;
  mc_eval : bool }.

Definition set_rnns (m : RNNModel) (rs : list Recurrent) : RNNModel :=
  mkRNNModel (training m) (use_dropout m) (encoder m) rs (prior m) (latent m)
    (decoder m) (rnn_type m) (ninp m) (nhid m) (nhidlast m) (nlayers m)
    (dropout m) (dropouti m) (dropouth m) (dropoute m) (ldropout m)
    (dropoutl m) (n_experts m) (ntoken m) (mc_eval m).

(** [range(n)] *)
Definition range (n : Z) : list Z := Z.of_nat <$> seq 0 (Z.to_nat n).

Section Construction.
Context `{Imports}.

(** State of a construction: the heap and the generator. *)
Definition new_param (t : tensor) : ST (heap * G) loc :=
  fun '(h, g) => inr (length h, (h ++ [t], g)).

Definition fill (n : nat) (f : nat -> R) : list R := f <$> seq 0 n.

(** [t.data.uniform_(lo, hi)] on the cell [l] *)
Definition uniform_ (l : loc) (lo hi : R) : ST (heap * G) unit :=
  fun '(h, g) =>
    t ← deref h l;
    let '(u, g') := rand g in
    mret (tt, (<[l := Tensor (shape t)
                         (fill (numel (shape t)) (fun i => lo + (hi - lo) * u i)%R)]> h, g')).

(** [t.data.normal_()] *)
Definition normal_ (l : loc) : ST (heap * G) unit :=
  fun '(h, g) =>
    t ← deref h l;
    let '(u, g') := randn g in
    mret (tt, (<[l := Tensor (shape t) (fill (numel (shape t)) u)]> h, g')).

(** [t.data.fill_(v)] *)
Definition fill_ (l : loc) (v : R) : ST (heap * G) unit :=
  fun '(h, g) =>
    t ← deref h l;
    mret (tt, (<[l := Tensor (shape t) (replicate (numel (shape t)) v)]> h, g)).

(** [Parameter(torch.Tensor(d1, ..., dk))]: negative sizes are refused. *)
Definition new_tensor (dims : list Z) : ST (heap * G) loc :=
  sh ← lift (mapM (M:=result) dim_of dims);
  new_param (zeros sh).

(** [1.0 / math.sqrt(n)] *)
Definition inv_sqrt (n : Z) : result R :=
  if (n =? 0)%Z then raise ZeroDivisionError else mret (/ sqrt (IZR n))%R.

(** [nn.Embedding(n, d)] *)
Definition new_Embedding (n d : Z) : ST (heap * G) Embedding :=
  w ← new_tensor [n; d];
  normal_ w;;
  mret (mkEmbedding (Z.to_nat n) (Z.to_nat d) w).

(** [nn.Linear(inp, out, bias)]: both initialisation bounds are
    [1 / sqrt(fan_in)]. *)
Definition new_Linear (inp out : Z) (bias : bool) : ST (heap * G) Linear :=
  w ← new_tensor [out; inp];
  b ← (if bias then Some <$> new_tensor [out] else mret None);
  bound ← lift (inv_sqrt inp);
  uniform_ w (- bound) bound;;
  match b with Some bl => uniform_ bl (- bound) bound | None => mret tt end;;
  mret (mkLinear (Z.to_nat inp) (Z.to_nat out) w b).

(** [torch.nn.LSTM(inp, hid, 1, dropout=0)] *)
Definition new_LSTM (inp hid : Z) : ST (heap * G) Recurrent :=
  wi ← new_tensor [4 * hid; inp]%Z;
  wh ← new_tensor [4 * hid; hid]%Z;
  bi ← new_tensor [4 * hid]%Z;
  bh ← new_tensor [4 * hid]%Z;
  stdv ← lift (inv_sqrt hid);
  uniform_ wi (- stdv) stdv;;
  uniform_ wh (- stdv) stdv;;
  uniform_ bi (- stdv) stdv;;
  uniform_ bh (- stdv) stdv;;
  mret (mkRecurrent (Z.to_nat inp) (Z.to_nat hid) wi wh bi bh None None).

(** Modelled from the spec: the constructor of [WeightDrop] (section 4.3),
    called as [WeightDrop(rnn, ['weight_hh_l0'], dropout=p)]; weight_drop.py
    is not among the sources.  The wrapper keeps the raw recurrent weight
    and remembers the probability; the named weight exists on every
    [nn.LSTM]. *)
Definition WeightDrop (rnn : Recurrent) (p : R) : Recurrent :=
  mkRecurrent (input_size rnn) (hidden_size rnn) (weight_ih rnn) (weight_hh rnn)
    (bias_ih rnn) (bias_hh rnn) (Some p) (rnn_mc_eval rnn).

(** [RNNModel.init_weights] *)
Definition init_weights (enc : Embedding) (dec : Linear) : ST (heap * G) unit :=
  let initrange := (/ 10)%R in
  uniform_ (emb_weight enc) (- initrange) initrange;;
  match lin_bias dec with
  | Some b => fill_ b 0%R
  | None => lift (raise RuntimeError)
  end;;
  uniform_ (lin_weight dec) (- initrange) initrange.

(** [RNNModel.__init__].  The closing print of the parameter count is
    output only and is left out. *)
Definition RNNModel_init (a : Args) : ST (heap * G) RNNModel :=
  let use_dropout := true in
  encoder ← new_Embedding (a_ntoken a) (a_ninp a);
  rnns ← mapM (M:=ST (heap * G))
    (fun l => new_LSTM (if (l =? 0)%Z then a_ninp a else a_nhid a)
                (if negb (l =? a_nlayers a - 1)%Z then a_nhid a else a_nhidlast a))
    (range (a_nlayers a));
  let rnns :=
    if Req_dec_T (a_wdrop a) 0 then rnns
    else (fun rnn => WeightDrop rnn (if use_dropout then a_wdrop a else 0%R)) <$> rnns in
  prior ← new_Linear (a_nhidlast a) (a_n_experts a) false;
  latent ← new_Linear (a_nhidlast a) (a_n_experts a * a_ninp a) true;
  decoder ← new_Linear (a_ninp a) (a_ntoken a) true;
  let decoder :=
    if a_tie_weights a
    then mkLinear (in_features decoder) (out_features decoder)
           (emb_weight encoder) (lin_bias decoder)
    else decoder in
  init_weights encoder decoder;;
  mret (mkRNNModel true use_dropout encoder rnns prior latent decoder
          (a_rnn_type a) (a_ninp a) (a_nhid a) (a_nhidlast a) (a_nlayers a)
          (a_dropout a) (a_dropouti a) (a_dropouth a) (a_dropoute a)
          (a_ldropout a) (a_ldropout a) (a_n_experts a) (a_ntoken a) false).

End Construction.

(** ** forward *)

(** The calls that forward makes to the sub-modules of the container and to
    [embedded_dropout], with the arguments passed and the value returned. *)
Inductive call :=
| CallEmbeddedDropout (input : ltensor) (dropout : R) (usedp mc_eval : bool) (res : tensor)
| CallLockdrop (x : tensor) (dropout : R) (mc_eval : bool) (res : tensor)
| CallRnn (l : nat) (rnn : Recurrent) (x : tensor) (h : hpair) (res : tensor) (new_h : hpair)
| CallLatent (x res : tensor)
| CallDecoder (x res : tensor)
| CallPrior (x res : tensor).

(** What forward returns: a pair, or a 4-tuple when [return_h] is set. *)
Inductive fwd_ret :=
| Ret2 (model_output : tensor) (hidden : list hpair)
| Ret4 (model_output : tensor) (hidden : list hpair) (raw_outputs outputs : list tensor).

Definition model_output_of (r : fwd_ret) : tensor :=
  match r with Ret2 o _ => o | Ret4 o _ _ _ => o end.


(** [nn.Linear.forward] *)
Definition Linear_forward (h : heap) (lin : Linear) (x : tensor) : result tensor :=
  W ← deref h (lin_weight lin);
  b ← match lin_bias lin with
      | Some bl => Some <$> deref h bl
      | None => mret None
      end;
  F_linear x W b.

Section Forward.
Context `{Imports}.

(** State of a forward call: the container (forward writes an attribute of
    its recurrent modules), the generator and the calls made so far. *)
Record fstate := mkFstate { self : RNNModel; gen : G; calls : list call }.

(** [p if self.use_dropout else 0] *)
Definition p_or_0 (ud : bool) (p : R) : R := if ud then p else 0%R.

Definition attr {A} (f : RNNModel -> A) : ST fstate A :=
  fun s => inr (f (self s), s).

Definition record (c : call) : ST fstate unit :=
  modify (fun s => mkFstate (self s) (gen s) (calls s ++ [c])).

Definition call_embedded_dropout (h : heap) (input : ltensor) (p : R)
    (usedp mc : bool) : ST fstate tensor :=
  fun s =>
    '(y, g) ← embedded_dropout h (encoder (self s)) input p usedp mc (gen s);
    mret (y, mkFstate (self s) g (calls s ++ [CallEmbeddedDropout input p usedp mc y])).

Definition call_lockdrop (x : tensor) (p : R) (mc : bool) : ST fstate tensor :=
  fun s =>
    '(y, g) ← lockdrop (training (self s)) x p mc (gen s);
    mret (y, mkFstate (self s) g (calls s ++ [CallLockdrop x p mc y])).

(** [rnn.mc_eval = v] on [self.rnns[l]] *)
Definition setattr_mc_eval (l : nat) (v : bool) : ST fstate Recurrent :=
  fun s =>
    match rnns (self s) !! l with
    | Some rnn =>
        let rnn' := set_rnn_mc_eval rnn v in
        mret (rnn', mkFstate (set_rnns (self s) (<[l := rnn']> (rnns (self s))))
                      (gen s) (calls s))
    | None => raise IndexError
    end.

Definition call_rnn (h : heap) (l : nat) (rnn : Recurrent) (x : tensor)
    (hc : hpair) : ST fstate (tensor * hpair) :=
  fun s =>
    '(y, new_h, g) ← rnn_forward (training (self s)) h rnn x hc (gen s);
    mret ((y, new_h), mkFstate (self s) g (calls s ++ [CallRnn l rnn x hc y new_h])).

Definition call_linear (mk : tensor -> tensor -> call) (post : tensor -> tensor)
    (h : heap) (lin : Linear) (x : tensor) : ST fstate tensor :=
  y ← lift (Linear_forward h lin x);
  let y := post y in
  record (mk x y);;
  mret y.

(** The variables of the loop over the layers. *)
Record loop_vars := mkLoop {
  raw_output : tensor;
  new_hidden : list hpair;
  raw_outputs : list tensor;
  outputs : list tensor }.

(** [for l, rnn in enumerate(self.rnns)], from index [l] on; [todo] is the
    part of the list still to visit. *)
Fixpoint layers (h : heap) (hidden : list hpair) (todo : list Recurrent)
    (l : nat) (v : loop_vars) : ST fstate loop_vars :=
  match todo with
  | [] => mret v
  | _ :: todo' =>
      mc ← attr mc_eval;
      rnn ← setattr_mc_eval l mc;
      hl ← lift (match hidden !! l with
                 | Some hc => mret hc
                 | None => raise IndexError
                 end);
      res ← call_rnn h l rnn (raw_output v) hl;
      let raw := fst res in
      let new_h := snd res in
      let new_hidden' := new_hidden v ++ [new_h] in
      let raw_outputs' := raw_outputs v ++ [raw] in
      nl ← attr nlayers;
      if negb (Z.of_nat l =? nl - 1)%Z then
        p ← attr dropouth; ud ← attr use_dropout; mc ← attr mc_eval;
        raw' ← call_lockdrop raw (p_or_0 ud p) mc;
        layers h hidden todo' (S l)
          (mkLoop raw' new_hidden' raw_outputs' (outputs v ++ [raw']))
      else
        layers h hidden todo' (S l)
          (mkLoop raw new_hidden' raw_outputs' (outputs v))
  end.

(** [RNNModel.forward(input, hidden, return_h, return_prob)] *)
Definition forward (h : heap) (input : ltensor) (hidden : list hpair)
    (return_h return_prob : bool) : ST fstate fwd_ret :=
  batch_size ← lift (size (lshape input) 1);
  p ← attr dropoute; tr ← attr training; ud ← attr use_dropout; mc ← attr mc_eval;
  emb ← call_embedded_dropout h input p (tr && ud) mc;
  p ← attr dropouti; ud ← attr use_dropout; mc ← attr mc_eval;
  emb ← call_lockdrop emb (p_or_0 ud p) mc;
  rs ← attr rnns;
  v ← layers h hidden rs 0 (mkLoop emb [] [] []);
  let hidden := new_hidden v in
  p ← attr dropout; ud ← attr use_dropout; mc ← attr mc_eval;
  output ← call_lockdrop (raw_output v) (p_or_0 ud p) mc;
  let outputs := outputs v ++ [output] in
  lat ← attr latent;
  latent ← call_linear CallLatent (tmap tanh) h lat output;
  p ← attr dropoutl; ud ← attr use_dropout; mc ← attr mc_eval;
  latent ← call_lockdrop latent (p_or_0 ud p) mc;
  dec ← attr decoder; ni ← attr ninp;
  lv ← lift (view_infer latent [ni]);
  logit ← call_linear CallDecoder (fun y => y) h dec lv;
  pr ← attr prior; ne ← attr n_experts;
  pl ← call_linear CallPrior (fun y => y) h pr output;
  prior_logit ← lift (view_infer pl [ne]);
  let prior := softmax_last prior_logit in
  nt ← attr ntoken;
  lg ← lift (view_infer logit [nt]);
  ne ← attr n_experts; nt ← attr ntoken;
  prob ← lift (view_infer (softmax_last lg) [ne; nt]);
  pu ← lift (unsqueeze prior 2);
  pe ← lift (expand_as pu prob);
  pm ← lift (mul prob pe);
  prob ← lift (sum_dim pm 1);
  let model_output := if return_prob then prob else log_add 1e-8 prob in
  nt ← attr ntoken;
  model_output ← lift (view_infer model_output [Z.of_nat batch_size; nt]);
  if return_h
  then mret (Ret4 model_output hidden (raw_outputs v) outputs)
  else mret (Ret2 model_output hidden).

End Forward.

(** [RNNModel.init_hidden(bsz)]: the first parameter of the model only
    provides the tensor type of the result. *)
Definition init_hidden (m : RNNModel) (bsz : Z) : result (list hpair) :=
  mapM (M:=result)
    (fun l =>
       let w := if negb (l =? nlayers m - 1)%Z then nhid m else nhidlast m in
       sh ← mapM (M:=result) dim_of [1%Z; bsz; w];
       mret (zeros sh, zeros sh))
    (range (nlayers m)).

(** ** The imports, modelled

    [embed_regularize.py], [locked_dropout.py] and [weight_drop.py] are not
    among the sources; the three definitions below follow the description
    of these modules in the specification.  The generator is a counter; a
    sample is a fixed function of the counter and of the position. *)

Definition std_rand (g : nat) : (nat -> R) * nat :=
  (fun i => (INR ((g * 31 + i * 17 + 7) mod 100) / 100)%R, S g).

Definition std_randn (g : nat) : (nat -> R) * nat :=
  (fun i => (INR ((g * 13 + i * 29 + 3) mod 200) / 50 - 2)%R, S g).

(** A Bernoulli mask with keep-probability [keep], kept entries being [scale]. *)
Definition mask_of (keep scale : R) (u : nat -> R) (n : nat) : list R :=
  (fun i => if Rlt_dec (u i) keep then scale else 0%R) <$> seq 0 n.

(** The factor on kept entries: [1/(1-p)], or 1 in the no-rescale mode. *)
Definition keep_scale (p : R) (mc_eval : bool) : R :=
  if mc_eval then 1%R else (/ (1 - p))%R.

(** Modelled from the spec: the forward of [MyLockedDropout] (section 4.2);
    locked_dropout.py is not among the sources.  One mask of shape
    (1, batch, features), shared by all time steps. *)
Definition std_lockdrop (training : bool) (x : tensor) (p : R) (mc_eval : bool)
    (g : nat) : result (tensor * nat) :=
  if Req_dec_T p 0 then mret (x, g)
  else if negb training then mret (x, g)
  else
    match shape x with
    | [T; B; F] =>
        let '(u, g') := std_rand g in
        let m := mask_of (1 - p) (keep_scale p mc_eval) u (B * F) in
        mret (Tensor (shape x)
                (concat ((fun step => zip_with Rmult step m) <$> chunks T (B * F) (data x))),
              g')
    | _ => raise IndexError
    end.

(** Modelled from the spec: [embedded_dropout] (section 4.1);
    embed_regularize.py is not among the sources.  When masking is active
    whole rows of the table are zeroed for this call; the table in the heap
    is not written. *)
Definition std_embedded_dropout (h : heap) (enc : Embedding) (input : ltensor)
    (p : R) (usedp mc_eval : bool) (g : nat) : result (tensor * nat) :=
  W ← deref h (emb_weight enc);
  match shape W with
  | [V; D] =>
      let table := chunks V D (data W) in
      let '(table, g') :=
        if usedp then
          let '(u, g') := std_rand g in
          (zip_with (fun k row => Rmult k <$> row)
             (mask_of (1 - p) (keep_scale p mc_eval) u V) table, g')
        else (table, g) in
      rows ← mapM (M:=result)
        (fun tok => if (tok <? 0)%Z then raise IndexError
                    else match table !! Z.to_nat tok with
                         | Some row => mret row
                         | None => raise IndexError
                         end)
        (ldata input);
      mret (Tensor (lshape input ++ [D]) (concat rows), g')
  | _ => raise RuntimeError
  end.

Definition sigmoid (x : R) : R := (1 / (1 + exp (- x)))%R.

(** One step of an LSTM cell on one batch element; the gates are stored in
    the order input, forget, cell, output. *)
Definition lstm_cell (Wih Whh : list (list R)) (bih bhh : list R) (hid : nat)
    (x : list R) (hc : list R * list R) : list R * list R :=
  let gates := zip_with Rplus (affine Wih bih x) (affine Whh bhh (fst hc)) in
  let i := sigmoid <$> take hid gates in
  let f := sigmoid <$> take hid (drop hid gates) in
  let g := tanh <$> take hid (drop (2 * hid) gates) in
  let o := sigmoid <$> take hid (drop (3 * hid) gates) in
  let c := zip_with Rplus (zip_with Rmult f (snd hc)) (zip_with Rmult i g) in
  (zip_with Rmult o (tanh <$> c), c).

(** The time steps in order; the state is one [(h, c)] per batch element. *)
Fixpoint lstm_seq (cell : list R -> list R * list R -> list R * list R)
    (xs : list (list (list R))) (st : list (list R * list R))
    : list (list (list R)) * list (list R * list R) :=
  match xs with
  | [] => ([], st)
  | xt :: xs' =>
      let st' := zip_with cell xt st in
      let '(ys, stT) := lstm_seq cell xs' st' in
      ((fst <$> st') :: ys, stT)
  end.

(** The state of one batch element has the width of the layer. *)
Definition state_ok (hid : nat) (hc : list R * list R) : Prop :=
  length (fst hc) = hid /\ length (snd hc) = hid.

(** Modelled from the spec: the forward of [WeightDrop] (section 4.3)
    around [nn.LSTM.forward]; weight_drop.py is not among the sources.  With
    the wrapper, a fresh mask is put on the recurrent weight for this call;
    the raw weight in the heap is not written.  The no-rescale mode is read
    from the [mc_eval] attribute of the module. *)
Definition std_rnn_forward (training : bool) (h : heap) (rnn : Recurrent)
    (x : tensor) (hc : hpair) (g : nat) : result (tensor * hpair * nat) :=
  Wih ← deref h (weight_ih rnn);
  Whh ← deref h (weight_hh rnn);
  bih ← deref h (bias_ih rnn);
  bhh ← deref h (bias_hh rnn);
  match shape x, shape (fst hc), shape (snd hc) with
  | [T; B; Di], [1; B1; H1], [1; B2; H2] =>
      let hid := hidden_size rnn in
      if decide (0 < T /\ Di = input_size rnn /\ B1 = B /\ B2 = B /\ H1 = hid /\ H2 = hid)
      then
        let '(whh, g') :=
          match weight_drop rnn with
          | Some p =>
              let '(u, g') := std_rand g in
              let mc := match rnn_mc_eval rnn with Some b => b | None => false end in
              (zip_with Rmult (data Whh)
                 (mask_of (1 - p) (keep_scale p mc) u (length (data Whh))), g')
          | None => (data Whh, g)
          end in
        let cell :=
          lstm_cell (chunks (4 * hid) Di (data Wih)) (chunks (4 * hid) hid whh)
            (data bih) (data bhh) hid in
        let xs := chunks B Di <$> chunks T (B * Di) (data x) in
        let st := zip (chunks B hid (data (fst hc))) (chunks B hid (data (snd hc))) in
        let '(ys, stT) := lstm_seq cell xs st in
        mret (Tensor [T; B; hid] (concat (@concat _ <$> ys)),
              (Tensor [1; B; hid] (concat (fst <$> stT)),
               Tensor [1; B; hid] (concat (snd <$> stT))), g')
      else raise RuntimeError
  | _, _, _ => raise RuntimeError
  end.

#[global] Instance std_imports : Imports := {
  G := nat;
  rand := std_rand;
  randn := std_randn;
  embedded_dropout := std_embedded_dropout;
  lockdrop := std_lockdrop;
  rnn_forward := std_rnn_forward }.

(** ** Well-formed models and inputs *)

(** The cell [l] of the heap holds a tensor of shape [sh]. *)
Definition param_ok (h : heap) (l : loc) (sh : list nat) : Prop :=
  exists t, h !! l = Some t /\ shape t = sh /\ wf t.

Definition linear_ok (h : heap) (lin : Linear) (inp out : nat) (bias : bool) : Prop :=
  param_ok h (lin_weight lin) [out; inp] /\
  match lin_bias lin with
  | Some b => bias = true /\ param_ok h b [out]
  | None => bias = false
  end.

Definition rnn_ok (h : heap) (r : Recurrent) : Prop :=
  param_ok h (weight_ih r) [4 * hidden_size r; input_size r] /\
  param_ok h (weight_hh r) [4 * hidden_size r; hidden_size r] /\
  param_ok h (bias_ih r) [4 * hidden_size r] /\
  param_ok h (bias_hh r) [4 * hidden_size r].

Definition prob_ok (p : R) : Prop := (0 <= p < 1)%R.

(** Width of layer [l] of [n]: [nhid if l != nlayers - 1 else nhidlast]. *)
Definition layer_width (m : RNNModel) (l : nat) : nat :=
  Z.to_nat (if negb (Z.of_nat l =? nlayers m - 1)%Z then nhid m else nhidlast m).

(** [ninp if l == 0 else nhid] *)
Definition layer_input (m : RNNModel) (l : nat) : nat :=
  Z.to_nat (if (Z.of_nat l =? 0)%Z then ninp m else nhid m).

(** What [__init__] establishes, and what switching [training], [mc_eval]
    or [use_dropout] preserves. *)
Record model_ok (h : heap) (m : RNNModel) : Prop := {
  ok_sizes :
    (0 < ninp m /\ 0 < nhid m /\ 0 < nhidlast m /\ 0 < ntoken m /\ 0 < n_experts m)%Z;
  ok_nlayers : nlayers m = Z.of_nat (length (rnns m)) /\ 0 < length (rnns m);
  ok_encoder :
    param_ok h (emb_weight (encoder m)) [Z.to_nat (ntoken m); Z.to_nat (ninp m)];
  ok_rnns :
    forall l r, rnns m !! l = Some r ->
      rnn_ok h r /\ input_size r = layer_input m l /\ hidden_size r = layer_width m l;
  ok_prior :
    linear_ok h (prior m) (Z.to_nat (nhidlast m)) (Z.to_nat (n_experts m)) false;
  ok_latent :
    linear_ok h (latent m) (Z.to_nat (nhidlast m))
      (Z.to_nat (n_experts m * ninp m)) true;
  ok_decoder :
    linear_ok h (decoder m) (Z.to_nat (ninp m)) (Z.to_nat (ntoken m)) true;
  ok_probs :
    prob_ok (dropout m) /\ prob_ok (dropouti m) /\ prob_ok (dropouth m) /\
    prob_ok (dropoute m) /\ prob_ok (dropoutl m) }.

(** Arguments with which the constructor returns: the sizes that reach a
    [1.0 / math.sqrt] are positive, no tensor size is negative.  Nothing is
    asked of [nlayers]. *)
Definition sizes_ok (a : Args) : Prop :=
  (0 <= a_ntoken a /\ 0 < a_ninp a /\ 0 < a_nhid a /\ 0 < a_nhidlast a /\
   0 <= a_n_experts a)%Z.

(** Arguments for a model on which forward runs: at least one layer and
    one expert, a non-empty vocabulary, probabilities in [0, 1). *)
Definition args_ok (a : Args) : Prop :=
  sizes_ok a /\ (0 < a_ntoken a /\ 0 < a_n_experts a /\ 0 < a_nlayers a)%Z /\
  prob_ok (a_dropout a) /\ prob_ok (a_dropouti a) /\ prob_ok (a_dropouth a) /\
  prob_ok (a_dropoute a) /\ prob_ok (a_ldropout a).

(** [h'] has the cells of [h], with the same shapes. *)
Definition heap_ext (h h' : list tensor) : Prop :=
  length h <= length h' /\ forall l sh, param_ok h l sh -> param_ok h' l sh.

(** The model that [__init__] returns for the arguments [a], in the heap [h]. *)
Record built (a : Args) (h : list tensor) (m : RNNModel) : Prop := {
  built_flags : training m = true /\ use_dropout m = true /\ mc_eval m = false;
  built_sizes :
    ninp m = a_ninp a /\ nhid m = a_nhid a /\ nhidlast m = a_nhidlast a /\
    nlayers m = a_nlayers a /\ n_experts m = a_n_experts a /\ ntoken m = a_ntoken a;
  built_probs :
    dropout m = a_dropout a /\ dropouti m = a_dropouti a /\
    dropouth m = a_dropouth a /\ dropoute m = a_dropoute a /\
    ldropout m = a_ldropout a /\ dropoutl m = a_ldropout a;
  built_encoder :
    param_ok h (emb_weight (encoder m)) [Z.to_nat (ntoken m); Z.to_nat (ninp m)];
  built_dims :
    num_embeddings (encoder m) = Z.to_nat (ntoken m) /\
    embedding_dim (encoder m) = Z.to_nat (ninp m) /\
    in_features (decoder m) = Z.to_nat (ninp m) /\
    out_features (decoder m) = Z.to_nat (ntoken m) /\
    out_features (prior m) = Z.to_nat (n_experts m);
  built_nrnns : length (rnns m) = Z.to_nat (a_nlayers a);
  built_rnns :
    forall l r, rnns m !! l = Some r ->
      rnn_ok h r /\ input_size r = layer_input m l /\ hidden_size r = layer_width m l /\
      rnn_mc_eval r = None /\
      weight_drop r = (if Req_dec_T (a_wdrop a) 0 then None else Some (a_wdrop a));
  built_prior :
    linear_ok h (prior m) (Z.to_nat (nhidlast m)) (Z.to_nat (n_experts m)) false;
  built_latent :
    linear_ok h (latent m) (Z.to_nat (nhidlast m))
      (Z.to_nat (n_experts m * ninp m)) true;
  built_decoder :
    linear_ok h (decoder m) (Z.to_nat (ninp m)) (Z.to_nat (ntoken m)) true;
  built_tied :
    if a_tie_weights a
    then lin_weight (decoder m) = emb_weight (encoder m)
    else lin_weight (decoder m) <> emb_weight (encoder m) }.

(** A (time, batch) matrix of token ids of the vocabulary. *)
Definition input_ok (m : RNNModel) (input : ltensor) (T B : nat) : Prop :=
  0 < T /\ 0 < B /\ lshape input = [T; B] /\ length (ldata input) = T * B /\
  Forall (fun tok => (0 <= tok < ntoken m)%Z) (ldata input).

(** One [(h, c)] per layer, each of shape (1, batch, width of the layer). *)
Definition hidden_ok (m : RNNModel) (hidden : list hpair) (B : nat) : Prop :=
  length hidden = length (rnns m) /\
  forall l hc, hidden !! l = Some hc ->
    shape (fst hc) = [1; B; layer_width m l] /\ wf (fst hc) /\
    shape (snd hc) = [1; B; layer_width m l] /\ wf (snd hc).

(** What forward relies on from its imports: on well-shaped arguments they
    return, and they keep the shapes. *)
Class ImportsOk `{Imports} : Prop := {
  embedded_dropout_ok :
    forall h enc input p usedp mc g V D T B,
      param_ok h (emb_weight enc) [V; D] ->
      lshape input = [T; B] -> length (ldata input) = T * B ->
      Forall (fun tok => (0 <= tok < Z.of_nat V)%Z) (ldata input) ->
      prob_ok p ->
      exists y g', embedded_dropout h enc input p usedp mc g = inr (y, g') /\
                   shape y = [T; B; D] /\ wf y;
  lockdrop_ok :
    forall tr x p mc g T B F,
      shape x = [T; B; F] -> wf x -> prob_ok p ->
      exists y g', lockdrop tr x p mc g = inr (y, g') /\
                   shape y = [T; B; F] /\ wf y;
  rnn_forward_ok :
    forall tr h r x hc g T B,
      rnn_ok h r -> 0 < T ->
      shape x = [T; B; input_size r] -> wf x ->
      shape (fst hc) = [1; B; hidden_size r] -> wf (fst hc) ->
      shape (snd hc) = [1; B; hidden_size r] -> wf (snd hc) ->
      exists y nh g', rnn_forward tr h r x hc g = inr (y, nh, g') /\
                      shape y = [T; B; hidden_size r] /\ wf y /\
                      shape (fst nh) = [1; B; hidden_size r] /\ wf (fst nh) /\
                      shape (snd nh) = [1; B; hidden_size r] /\ wf (snd nh) }.

(** ** The mixture on flat arrays

    The data of [prob] after lines 114-118 of forward, for [N] rows (time
    steps times batch elements), [E] experts and a vocabulary of [V]: [lg] is
    the data of the logits, [plg] that of the prior logits. *)
Definition mixture_data (N E V : nat) (lg plg : list R) : list R :=
  let P := concat (softmax_row <$> chunks (N * E) V lg) in
  let W := concat (softmax_row <$> chunks N E plg) in
  let Wx := concat ((fun ws => concat (replicate V <$> ws)) <$> chunks N E W) in
  concat ((fun blk => vsum V (chunks E V blk)) <$> chunks N (E * V) (zip_with Rmult P Wx)).

(** ** Reading the calls of a run *)

Record embedded_call := mkEmbeddedCall {
  ec_input : ltensor;
  ec_dropout : R;
  ec_usedp : bool;
  ec_mc_eval : bool;
  ec_output : tensor }.

Record lockdrop_call := mkLockdropCall {
  lc_input : tensor;
  lc_dropout : R;
  lc_mc_eval : bool;
  lc_output : tensor }.

(** [rc_module] is the module as it is when invoked, attributes included. *)
Record rnn_call := mkRnnCall {
  rc_layer : nat;
  rc_module : Recurrent;
  rc_input : tensor;
  rc_hidden : hpair;
  rc_output : tensor;
  rc_new_hidden : hpair }.

Definition embedded_calls (tr : list call) : list embedded_call :=
  omap (fun c => match c with
                 | CallEmbeddedDropout i p u mc y => Some (mkEmbeddedCall i p u mc y)
                 | _ => None
                 end) tr.

Definition lockdrop_calls (tr : list call) : list lockdrop_call :=
  omap (fun c => match c with
                 | CallLockdrop x p mc y => Some (mkLockdropCall x p mc y)
                 | _ => None
                 end) tr.

Definition rnn_calls (tr : list call) : list rnn_call :=
  omap (fun c => match c with
                 | CallRnn l r x hc y nh => Some (mkRnnCall l r x hc y nh)
                 | _ => None
                 end) tr.

Definition latent_calls (tr : list call) : list (tensor * tensor) :=
  omap (fun c => match c with CallLatent x y => Some (x, y) | _ => None end) tr.

Definition decoder_calls (tr : list call) : list (tensor * tensor) :=
  omap (fun c => match c with CallDecoder x y => Some (x, y) | _ => None end) tr.

Definition prior_calls (tr : list call) : list (tensor * tensor) :=
  omap (fun c => match c with CallPrior x y => Some (x, y) | _ => None end) tr.

(** The mc_eval flag that a call carries: an argument of the two dropouts,
    the attribute of a recurrent module at the time it is invoked. *)
Definition call_mc_eval (c : call) : option (option bool) :=
  match c with
  | CallEmbeddedDropout _ _ _ mc _ => Some (Some mc)
  | CallLockdrop _ _ mc _ => Some (Some mc)
  | CallRnn _ r _ _ _ _ => Some (rnn_mc_eval r)
  | _ => None
  end.

(** Feature width of the tensor that enters layer [l] (of the tensor that
    leaves the stack, for [l] the number of layers). *)
Definition width_before (m : RNNModel) (l : nat) : nat :=
  match l with 0 => Z.to_nat (ninp m) | S l' => layer_width m l' end.

(** The calls of the loop over the layers from layer [l] on, entered with
    [x], for the modules [todo]; the last argument is the tensor that
    leaves the loop. *)
Inductive layer_trace (m : RNNModel) (hidden : list hpair)
    : nat -> tensor -> list Recurrent -> list call -> tensor -> Prop :=
| layer_trace_done l x : layer_trace m hidden l x [] [] x
| layer_trace_last l x r todo hc y nh tr out :
    hidden !! l = Some hc ->
    Z.of_nat l = (nlayers m - 1)%Z ->
    layer_trace m hidden (S l) y todo tr out ->
    layer_trace m hidden l x (r :: todo)
      (CallRnn l (set_rnn_mc_eval r (mc_eval m)) x hc y nh :: tr) out
| layer_trace_inner l x r todo hc y nh z tr out :
    hidden !! l = Some hc ->
    Z.of_nat l <> (nlayers m - 1)%Z ->
    layer_trace m hidden (S l) z todo tr out ->
    layer_trace m hidden l x (r :: todo)
      (CallRnn l (set_rnn_mc_eval r (mc_eval m)) x hc y nh
         :: CallLockdrop y (p_or_0 (use_dropout m) (dropouth m)) (mc_eval m) z :: tr) out.

(** Total correctness of a stateful computation: it returns, and the value
    and the final state satisfy [Q]. *)
Definition post {S A} (c : ST S A) (s : S) (Q : A -> S -> Prop) : Prop :=
  exists x s', c s = inr (x, s') /\ Q x s'.

(** ** The example of model.py and variants of it

    [RNNModel('LSTM', 10, 12, 12, 12, 2)] with the default arguments, on a
    (13, 9) matrix of tokens. *)
Definition main_args : Args :=
  mkArgs "LSTM" 10 12 12 12 2 (1 / 2) (1 / 2) (1 / 2) (1 / 10) 0 false (1 / 2) 10.

Definition main_input : ltensor :=
  LTensor [13; 9] ((fun i => Z.of_nat (i mod 10)) <$> seq 0 117).

(** The same with [tie_weights=True]. *)
Definition tied_args : Args :=
  mkArgs "LSTM" 10 12 12 12 2 (1 / 2) (1 / 2) (1 / 2) (1 / 10) 0 true (1 / 2) 10.

(** [tie_weights=True] with pairwise different widths: [ninp = 2],
    [nhid = 3], [nhidlast = 4]. *)
Definition mismatch_args : Args :=
  mkArgs "LSTM" 10 2 3 4 2 (1 / 2) (1 / 2) (1 / 2) (1 / 10) 0 true (1 / 2) 10.

(** [nlayers = 0] *)
Definition no_layer_args : Args :=
  mkArgs "LSTM" 10 12 12 12 0 (1 / 2) (1 / 2) (1 / 2) (1 / 10) 0 false (1 / 2) 10.

(** [n_experts = 0] *)
Definition no_expert_args : Args :=
  mkArgs "LSTM" 10 12 12 12 2 (1 / 2) (1 / 2) (1 / 2) (1 / 10) 0 false (1 / 2) 0.

(** ** Outcomes of a run, and the cells of a model *)

(** What a stateful computation does on a state: [Q] holds of the value and
    the final state when it returns, [E] of the exception when it raises. *)
Definition outcome {S A} (c : ST S A) (s : S) (Q : A -> S -> Prop)
    (E : exn -> Prop) : Prop :=
  match c s with inr (x, s') => Q x s' | inl e => E e end.

(** Partial correctness: [Q] holds whenever the computation returns. *)
Definition wlp {S A} (c : ST S A) (s : S) (Q : A -> S -> Prop) : Prop :=
  outcome c s Q (fun _ => True).



(** The four parameter cells of a recurrent module. *)
Definition rnn_cells (r : Recurrent) : list nat :=
  [weight_ih r; weight_hh r; bias_ih r; bias_hh r].


(** [h'] is [h] followed by [n] more cells: the cells of [h] are there with
    their contents. *)
Definition extends_by (n : nat) (h h' : list tensor) : Prop :=
  h `prefix_of` h' /\ length h' = length h + n.

(** The data of [t] is a draw of [uniform_(lo, hi)]. *)
Definition drawn_uniform `{Imports} (lo hi : R) (t : tensor) : Prop :=
  exists g : G,
    data t = fill (numel (shape t)) (fun i => lo + (hi - lo) * fst (rand g) i)%R.

(** Where [__init__] called on the heap [h0] puts the parameters of the
    model [m] that it returns in the heap [h], and what init_weights left in
    the three tensors that it writes.  The cells are allocated in the order
    of the constructor: the embedding table, four per recurrent layer, the
    weight of the prior, weight and bias of the latent, weight and bias of
    the decoder. *)
Record placed `{Imports} (a : Args) (h0 h : list tensor) (m : RNNModel) : Prop := {
  placed_heap : extends_by (6 + 4 * length (rnns m)) h0 h;
  placed_encoder : emb_weight (encoder m) = length h0;
  placed_rnns : concat (rnn_cells <$> rnns m) = seq (S (length h0)) (4 * length (rnns m));
  placed_prior :
    lin_weight (prior m) = length h0 + 4 * length (rnns m) + 1 /\
    lin_bias (prior m) = None;
  placed_latent :
    lin_weight (latent m) = length h0 + 4 * length (rnns m) + 2 /\
    lin_bias (latent m) = Some (length h0 + 4 * length (rnns m) + 3);
  placed_decoder :
    lin_weight (decoder m)
    = (if a_tie_weights a then length h0 else length h0 + 4 * length (rnns m) + 4) /\
    lin_bias (decoder m) = Some (length h0 + 4 * length (rnns m) + 5);
  placed_features :
    in_features (prior m) = Z.to_nat (a_nhidlast a) /\
    in_features (latent m) = Z.to_nat (a_nhidlast a) /\
    out_features (latent m) = Z.to_nat (a_n_experts a * a_ninp a);
  placed_bias :
    exists t, h !! (length h0 + 4 * length (rnns m) + 5) = Some t /\
              data t = replicate (numel (shape t)) 0%R;
  placed_table :
    exists t, h !! emb_weight (encoder m) = Some t /\ drawn_uniform (- / 10) (/ 10) t;
  placed_weight :
    exists t, h !! lin_weight (decoder m) = Some t /\ drawn_uniform (- / 10) (/ 10) t }.








(** ** Lists in chunks, sums of reals, softmax *)

Section Chunks.
Context {A : Type}.
Implicit Types (l : list A) (rs : list (list A)).

Lemma chunks_S n k l : chunks (S n) k l = take k l :: chunks n k (drop k l).
Proof. reflexivity. Qed.

Lemma length_chunks n k l : length (chunks n k l) = n.
Proof. unfold chunks. rewrite length_reshape, length_replicate. done. Qed.

Lemma chunks_row_length n k l :
  length l = n * k -> Forall (fun r => length r = k) (chunks n k l).
Proof.
  revert l. induction n as [|n IH]; intros l Hl; [constructor|].
  rewrite chunks_S. constructor.
  - rewrite length_take. lia.
  - apply IH. rewrite length_drop. lia.
Qed.

Lemma concat_chunks n k l : length l = n * k -> concat (chunks n k l) = l.
Proof.
  revert l. induction n as [|n IH]; intros l Hl.
  - destruct l; [done|simpl in Hl; lia].
  - rewrite chunks_S. simpl. rewrite IH by (rewrite length_drop; lia).
    apply take_drop.
Qed.

Lemma chunks_concat k rs :
  Forall (fun r => length r = k) rs -> chunks (length rs) k (concat rs) = rs.
Proof.
  induction 1 as [|r rs Hr _ IH]; [done|].
  simpl. rewrite chunks_S. subst k.
  rewrite take_app_length, drop_app_length. by rewrite IH.
Qed.

Lemma length_concat_rows k rs :
  Forall (fun r => length r = k) rs -> length (concat rs) = length rs * k.
Proof.
  induction 1 as [|r rs Hr _ IH]; [done|].
  simpl. rewrite length_app. lia.
Qed.

End Chunks.

(** Regrouping: the rows of a block structure. *)
Lemma concat_regroup {A} n e (rs : list (list A)) :
  length rs = n * e -> concat (@concat _ <$> chunks n e rs) = concat rs.
Proof.
  intros Hl. rewrite <- (concat_chunks n e rs Hl) at 2.
  generalize (chunks n e rs). intros bs.
  induction bs as [|b bs IH]; [done|].
  rewrite fmap_cons. cbn [concat]. rewrite concat_app. by rewrite IH.
Qed.


Lemma zip_with_concat {A B C} (f : A -> B -> C) (xs : list (list A)) (ys : list (list B)) :
  Forall2 (fun x y => length x = length y) xs ys ->
  zip_with f (concat xs) (concat ys) = concat (zip_with (zip_with f) xs ys).
Proof.
  induction 1 as [|x y xs ys Hxy _ IH]; [done|].
  simpl. rewrite zip_with_app by done. by rewrite IH.
Qed.

Section RealSums.
#[local] Open Scope R_scope.

Lemma sum_R_app a b : sum_R (a ++ b) = sum_R a + sum_R b.
Proof. induction a as [|x a IH]; simpl; [lra|]. rewrite IH. lra. Qed.

Lemma sum_R_replicate_0 n : sum_R (replicate n 0) = 0.
Proof. induction n as [|n IH]; simpl; [done|]. rewrite IH. lra. Qed.

Lemma sum_R_zip_plus a b :
  length a = length b -> sum_R (zip_with Rplus a b) = sum_R a + sum_R b.
Proof.
  revert b. induction a as [|x a IH]; intros [|y b] Hl; simpl in *; try lia; [lra|].
  rewrite IH by lia. lra.
Qed.

Lemma sum_R_scale c l : sum_R ((fun x => x * c) <$> l) = sum_R l * c.
Proof.
  induction l as [|x l IH]; csimpl; [lra|].
  change (sum_R (x * c :: ((fun x => x * c) <$> l))) with (x * c + sum_R ((fun x => x * c) <$> l)).
  rewrite IH. unfold sum_R at 2. simpl. fold (sum_R l). lra.
Qed.

Lemma sum_R_exp_pos r : r <> [] -> 0 < sum_R (exp <$> r).
Proof.
  assert (Hnn : forall l, 0 <= sum_R (exp <$> l)).
  { induction l as [|x l IH]; csimpl; [unfold sum_R; simpl; lra|].
    change (sum_R (exp x :: (exp <$> l))) with (exp x + sum_R (exp <$> l)).
    pose proof (exp_pos x). lra. }
  destruct r as [|x r]; [done|]. intros _. csimpl.
  change (sum_R (exp x :: (exp <$> r))) with (exp x + sum_R (exp <$> r)).
  pose proof (exp_pos x). pose proof (Hnn r). lra.
Qed.

Lemma length_softmax_row r : length (softmax_row r) = length r.
Proof. unfold softmax_row. by rewrite length_fmap. Qed.

Lemma softmax_row_sum r : r <> [] -> sum_R (softmax_row r) = 1.
Proof.
  intros Hr. unfold softmax_row.
  pose proof (sum_R_exp_pos r Hr) as Hz.
  set (z := sum_R (exp <$> r)) in *.
  replace ((fun x => exp x / z) <$> r) with ((fun x => x * / z) <$> (exp <$> r)).
  - rewrite sum_R_scale. fold z. field. lra.
  - rewrite <- list_fmap_compose. done.
Qed.

Lemma length_vsum n rs :
  Forall (fun r => length r = n) rs -> length (vsum n rs) = n.
Proof.
  induction 1 as [|r rs Hr _ IH]; simpl.
  - apply length_replicate.
  - rewrite length_zip_with. fold (vsum n rs). lia.
Qed.

Lemma sum_R_vsum n rs :
  Forall (fun r => length r = n) rs -> sum_R (vsum n rs) = sum_R (sum_R <$> rs).
Proof.
  induction 1 as [|r rs Hr Hrs IH]; simpl.
  - apply sum_R_replicate_0.
  - rewrite sum_R_zip_plus.
    + fold (vsum n rs). rewrite IH. done.
    + fold (vsum n rs). rewrite length_vsum; done.
Qed.

(** One row of the mixture: experts' distributions [ps] weighted by [ws]. *)
Lemma mixture_row_sum V (ps : list (list R)) (ws : list R) :
  length ps = length ws ->
  Forall (fun p => length p = V /\ sum_R p = 1) ps ->
  sum_R (vsum V (zip_with (zip_with Rmult) ps (replicate V <$> ws))) = sum_R ws.
Proof.
  intros Hl Hps. rewrite sum_R_vsum.
  - revert ws Hl. induction Hps as [|p ps [Hp1 Hp2] _ IH]; intros [|w ws] Hl;
      simpl in *; try lia; [done|].
    rewrite IH by lia. f_equal.
    rewrite zip_with_replicate_r_eq by done.
    change (flip Rmult w <$> p) with ((fun x => x * w) <$> p).
    rewrite sum_R_scale. rewrite Hp2. lra.
  - revert ws Hl. induction Hps as [|p ps [Hp1 Hp2] _ IH]; intros [|w ws] Hl;
      simpl in *; try lia; constructor.
    + rewrite length_zip_with, length_replicate. lia.
    + apply IH. lia.
Qed.

Lemma softmax_row_pos r : Forall (fun x => 0 < x) (softmax_row r).
Proof.
  destruct (decide (r = [])) as [->|Hr]; [constructor|].
  unfold softmax_row. apply Forall_fmap, Forall_true. intros x. simpl.
  apply Rdiv_lt_0_compat; [apply exp_pos|by apply sum_R_exp_pos].
Qed.

Lemma zip_plus_pos a b :
  Forall (fun x => 0 < x) a -> Forall (fun x => 0 <= x) b ->
  Forall (fun x => 0 < x) (zip_with Rplus a b).
Proof.
  intros Ha Hb. apply Forall_lookup. intros i z Hz.
  apply lookup_zip_with_Some in Hz as (x & y & -> & Hx & Hy).
  pose proof (proj1 (Forall_lookup _ _) Ha i x Hx) as Hx'.
  pose proof (proj1 (Forall_lookup _ _) Hb i y Hy) as Hy'.
  simpl in *. lra.
Qed.

Lemma vsum_nonneg n rs :
  Forall (Forall (fun x => 0 < x)) rs -> Forall (fun x => 0 <= x) (vsum n rs).
Proof.
  induction 1 as [|r rs Hr _ IH]; simpl.
  - apply Forall_replicate. lra.
  - fold (vsum n rs). eapply Forall_impl; [by apply zip_plus_pos|].
    intros x Hx. simpl in Hx. lra.
Qed.

(** With at least one expert the mixture has positive entries. *)
Lemma mixture_row_pos V (ps : list (list R)) (ws : list R) :
  ps <> [] -> length ps = length ws ->
  Forall (Forall (fun x => 0 < x)) ps -> Forall (fun w => 0 < w) ws ->
  Forall (fun x => 0 < x) (vsum V (zip_with (zip_with Rmult) ps (replicate V <$> ws))).
Proof.
  intros Hne Hl Hps Hws.
  assert (Hrows : Forall (Forall (fun x => 0 < x))
                    (zip_with (zip_with Rmult) ps (replicate V <$> ws))).
  { apply Forall_lookup. intros i r Hi.
    apply lookup_zip_with_Some in Hi as (p & q & -> & Hp & Hq).
    apply list_lookup_fmap_Some in Hq as (w & -> & Hw).
    pose proof (proj1 (Forall_lookup _ _) Hps i p Hp) as Hp'.
    pose proof (proj1 (Forall_lookup _ _) Hws i w Hw) as Hw'.
    simpl in Hp', Hw'. apply Forall_lookup. intros j z Hz.
    apply lookup_zip_with_Some in Hz as (x & y & -> & Hx & Hy).
    apply lookup_replicate in Hy as [-> _].
    pose proof (proj1 (Forall_lookup _ _) Hp' j x Hx) as Hx'. simpl in Hx'.
    by apply Rmult_lt_0_compat. }
  destruct ps as [|p ps]; [done|]. destruct ws as [|w ws]; [simpl in Hl; lia|].
  simpl in Hrows |- *. apply Forall_cons in Hrows as [Hr1 Hr2].
  apply zip_plus_pos; [done|]. by apply vsum_nonneg.
Qed.

End RealSums.

Lemma mapM_result_fmap {A B} (f : A -> result B) (g : A -> B) (l : list A) :
  Forall (fun x => f x = inr (g x)) l -> mapM (M:=result) f l = inr (g <$> l).
Proof.
  induction 1 as [|x l Hx _ IH]; [done|].
  simpl. rewrite Hx. simpl. rewrite IH. done.
Qed.

Lemma chunks_singletons {A} (l : list A) :
  chunks (length l) 1 l = (fun x => [x]) <$> l.
Proof.
  induction l as [|x l IH]; [done|].
  simpl length. rewrite chunks_S. simpl. rewrite drop_0. by rewrite IH.
Qed.

Lemma concat_replicate_singleton {A} n (x : A) :
  concat (replicate n [x]) = replicate n x.
Proof. induction n as [|n IH]; [done|]. simpl. by rewrite IH. Qed.

Lemma expand_data_last1 V (w : R) :
  expand_data [1] [V] [w] = inr (replicate V w).
Proof.
  destruct V as [|[|V]]; try reflexivity.
  cbn -[replicate concat]. f_equal. apply concat_replicate_singleton.
Qed.

Lemma expand_data_last2 E V (ws : list R) :
  length ws = E ->
  expand_data [E; 1] [E; V] ws = inr (concat (replicate V <$> ws)).
Proof.
  intros Hl. cbn [expand_data]. rewrite Nat.eqb_refl.
  change (numel [1]) with 1. subst E. rewrite chunks_singletons.
  rewrite (mapM_result_fmap _ (fun x => replicate V (List.hd 0%R x))).
  - simpl. f_equal. f_equal. rewrite <- list_fmap_compose. done.
  - apply Forall_fmap. apply Forall_true. intros w. apply expand_data_last1.
Qed.

Lemma expand_data_last3 N E V (W : list R) :
  length W = N * E ->
  expand_data [N; E; 1] [N; E; V] W
  = inr (concat ((fun ws => concat (replicate V <$> ws)) <$> chunks N E W)).
Proof.
  intros Hl.
  change (expand_data [N; E; 1] [N; E; V] W) with
    (if N =? N then
       rs ← mapM (M:=result) (expand_data [E; 1] [E; V]) (chunks N (numel [E; 1]) W);
       mret (concat rs)
     else if N =? 1 then
       e ← expand_data [E; 1] [E; V] W; mret (concat (replicate N e))
     else raise RuntimeError).
  rewrite Nat.eqb_refl.
  replace (numel [E; 1]) with E by (simpl; lia).
  rewrite (mapM_result_fmap _ (fun ws => concat (replicate V <$> ws))); [done|].
  eapply Forall_impl; [apply (chunks_row_length N E W Hl)|].
  intros ws Hws. by apply expand_data_last2.
Qed.

(** Rows of a softmax over [k] entries: distributions. *)
Lemma softmax_rows_dist n k (l : list R) :
  0 < k -> length l = n * k ->
  Forall (fun p => length p = k /\ sum_R p = 1%R /\ Forall (fun x => (0 < x)%R) p)
    (softmax_row <$> chunks n k l).
Proof.
  intros Hk Hl. apply Forall_fmap.
  eapply Forall_impl; [apply (chunks_row_length n k l Hl)|].
  intros r Hr. simpl. rewrite length_softmax_row. split; [done|].
  split; [|apply softmax_row_pos].
  apply softmax_row_sum. intros ->. simpl in Hr. lia.
Qed.

Lemma mixture_data_rows N E V lg plg :
  0 < E -> 0 < V -> length lg = N * E * V -> length plg = N * E ->
  length (mixture_data N E V lg plg) = N * V /\
  Forall (fun r => sum_R r = 1%R /\ Forall (fun x => (0 < x)%R) r)
    (chunks N V (mixture_data N E V lg plg)).
Proof.
  intros HE HV Hlg Hplg. unfold mixture_data.
  pose proof (softmax_rows_dist (N * E) V lg HV Hlg) as HP.
  pose proof (softmax_rows_dist N E plg HE Hplg) as HW.
  set (PR := softmax_row <$> chunks (N * E) V lg) in *.
  set (WR := softmax_row <$> chunks N E plg) in *.
  assert (HlenPR : length PR = N * E).
  { unfold PR. by rewrite length_fmap, length_chunks. }
  assert (HlenWR : length WR = N).
  { unfold WR. by rewrite length_fmap, length_chunks. }
  assert (HWRE : Forall (fun r => length r = E) WR).
  { eapply Forall_impl; [exact HW|]. by intros ? [? _]. }
  assert (HcW : chunks N E (concat WR) = WR).
  { rewrite <- HlenWR. by apply chunks_concat. }
  rewrite HcW.
  rewrite <- (concat_regroup N E PR HlenPR).
  set (BP := chunks N E PR).
  set (g := fun ws : list R => concat (replicate V <$> ws)).
  assert (HBPlen : length BP = N) by apply length_chunks.
  assert (HBP : Forall (fun b => length b = E /\
                   Forall (fun p => length p = V /\ sum_R p = 1%R /\
                                    Forall (fun x => (0 < x)%R) p) b) BP).
  { apply Forall_and. split.
    - apply chunks_row_length. done.
    - apply Forall_reshape. done. }
  assert (Hg : forall ws, length (g ws) = length ws * V).
  { intros ws. unfold g. rewrite (length_concat_rows V).
    - by rewrite length_fmap.
    - apply Forall_fmap, Forall_true. intros x. apply length_replicate. }
  assert (Hcb : forall b, Forall (fun p => length p = V /\ sum_R p = 1%R /\
                                           Forall (fun x => (0 < x)%R) p) b ->
                          length (concat b) = length b * V).
  { intros b Hb. apply length_concat_rows.
    eapply Forall_impl; [exact Hb|]. by intros ? [? _]. }
  assert (Hblocks : Forall (fun blk => length blk = E * V)
            (zip_with (zip_with Rmult) (@concat _ <$> BP) (g <$> WR))).
  { apply Forall_lookup. intros i blk Hi.
    apply lookup_zip_with_Some in Hi as (x & y & -> & Hx & Hy).
    apply list_lookup_fmap_Some in Hx as (b & -> & Hb).
    apply list_lookup_fmap_Some in Hy as (ws & -> & Hws).
    rewrite length_zip_with, Hg.
    pose proof (proj1 (Forall_lookup _ _) HBP i b Hb) as [Hb1 Hb2].
    pose proof (proj1 (Forall_lookup _ _) HWRE i ws Hws) as Hws1.
    rewrite Hcb by done. cbv beta in Hws1. rewrite Hb1, Hws1. lia. }
  rewrite zip_with_concat.
  2:{ apply Forall2_same_length_lookup_2.
      - rewrite !length_fmap. lia.
      - intros i x y Hx Hy.
        apply list_lookup_fmap_Some in Hx as (b & -> & Hb).
        apply list_lookup_fmap_Some in Hy as (ws & -> & Hws).
        pose proof (proj1 (Forall_lookup _ _) HBP i b Hb) as [Hb1 Hb2].
        pose proof (proj1 (Forall_lookup _ _) HWRE i ws Hws) as Hws1.
        cbv beta in Hws1. rewrite Hg, Hcb by done. rewrite Hb1, Hws1. done. }
  set (Z := zip_with (zip_with Rmult) (@concat _ <$> BP) (g <$> WR)) in *.
  assert (HlenZ : length Z = N).
  { unfold Z. rewrite length_zip_with, !length_fmap. lia. }
  assert (HcZ : chunks N (E * V) (concat Z) = Z).
  { rewrite <- HlenZ. by apply chunks_concat. }
  rewrite HcZ.
  set (h := fun blk : list R => vsum V (chunks E V blk)).
  assert (Hh : Forall (fun r => length r = V) (h <$> Z)).
  { apply Forall_fmap. eapply Forall_impl; [exact Hblocks|].
    intros blk Hblk. simpl. unfold h. apply length_vsum.
    apply chunks_row_length. done. }
  split.
  - rewrite (length_concat_rows V _ Hh). by rewrite length_fmap, HlenZ.
  - replace N with (length (h <$> Z)) by (by rewrite length_fmap, HlenZ).
    rewrite (chunks_concat V _ Hh).
    apply Forall_fmap. apply Forall_lookup. intros i blk Hi. simpl.
    apply lookup_zip_with_Some in Hi as (x & y & -> & Hx & Hy).
    apply list_lookup_fmap_Some in Hx as (b & -> & Hb).
    apply list_lookup_fmap_Some in Hy as (ws & -> & Hws).
    pose proof (proj1 (Forall_lookup _ _) HBP i b Hb) as [Hb1 Hb2].
    pose proof (proj1 (Forall_lookup _ _) HW i ws Hws) as (Hws1 & Hws2 & Hws3).
    unfold h, g. rewrite zip_with_concat.
    2:{ apply Forall2_same_length_lookup_2.
        - rewrite length_fmap. lia.
        - intros j p q Hp Hq.
          apply list_lookup_fmap_Some in Hq as (w & -> & Hw).
          rewrite length_replicate.
          by pose proof (proj1 (Forall_lookup _ _) Hb2 j p Hp) as [? _]. }
    set (rows := zip_with (zip_with Rmult) b (replicate V <$> ws)).
    assert (Hrows : Forall (fun r => length r = V) rows).
    { apply Forall_lookup. intros j r Hj.
      apply lookup_zip_with_Some in Hj as (p & q & -> & Hp & Hq).
      apply list_lookup_fmap_Some in Hq as (w & -> & Hw).
      rewrite length_zip_with, length_replicate.
      pose proof (proj1 (Forall_lookup _ _) Hb2 j p Hp) as [? _]. lia. }
    replace E with (length rows).
    2:{ unfold rows. rewrite length_zip_with, length_fmap. lia. }
    rewrite (chunks_concat V rows Hrows).
    unfold rows. split.
    + rewrite mixture_row_sum; [done|lia|].
      eapply Forall_impl; [exact Hb2|]. by intros ? (? & ? & _).
    + apply mixture_row_pos; [|lia| |done].
      * intros ->. simpl in Hb1. lia.
      * eapply Forall_impl; [exact Hb2|]. by intros ? (_ & _ & ?).
Qed.

Lemma mixture_data_pos N E V lg plg :
  0 < E -> 0 < V -> length lg = N * E * V -> length plg = N * E ->
  Forall (fun x => (0 < x)%R) (mixture_data N E V lg plg).
Proof.
  intros HE HV Hlg Hplg.
  destruct (mixture_data_rows N E V lg plg HE HV Hlg Hplg) as [Hlen Hrows].
  rewrite <- (concat_chunks N V (mixture_data N E V lg plg) Hlen).
  apply Forall_concat. eapply Forall_impl; [exact Hrows|]. by intros ? [_ ?].
Qed.

(** ** Tensor operations on well-shaped arguments *)

Lemma numel_app a b : numel (a ++ b) = numel a * numel b.
Proof. induction a as [|x a IH]; simpl; [lia|]. rewrite IH. lia. Qed.

Lemma mapM_result_cons {A B} (f : A -> result B) x l :
  mapM (M:=result) f (x :: l) = (y ← f x; k ← mapM (M:=result) f l; mret (y :: k)).
Proof. reflexivity. Qed.

Lemma mapM_dim_of (ds : list nat) :
  mapM (M:=result) dim_of (Z.of_nat <$> ds) = inr ds.
Proof.
  induction ds as [|d ds IH]; [done|].
  rewrite fmap_cons, mapM_result_cons, IH. unfold dim_of.
  destruct (Z.ltb_spec (Z.of_nat d) 0); [lia|].
  simpl. by rewrite Nat2Z.id.
Qed.

Lemma view_infer_ok (t : tensor) (n : nat) (ds : list nat) :
  numel (shape t) = n * numel ds -> numel ds <> 0 ->
  view_infer t (Z.of_nat <$> ds) = inr (Tensor (n :: ds) (data t)).
Proof.
  intros Hn Hds. unfold view_infer. rewrite mapM_dim_of. simpl.
  destruct (Nat.eqb_spec (numel ds) 0); [done|].
  rewrite Hn. rewrite Nat.Div0.mod_mul. simpl.
  rewrite Nat.div_mul by done. done.
Qed.

Lemma lead_dims_snoc (pre : list nat) (d : nat) : lead_dims (pre ++ [d]) = pre.
Proof. unfold lead_dims. apply removelast_last. Qed.

Lemma last_dim_snoc (pre : list nat) (d : nat) : last_dim (pre ++ [d]) = d.
Proof. unfold last_dim. apply last_last. Qed.

Lemma length_affine W b x : length (affine W b x) = min (length W) (length b).
Proof. unfold affine. apply length_zip_with. Qed.

Lemma F_linear_ok (x W : tensor) (b : option tensor) (pre : list nat) (inp out : nat) :
  shape W = [out; inp] -> shape x = pre ++ [inp] ->
  match b with Some bt => length (data bt) = out | None => True end ->
  exists y, F_linear x W b = inr y /\ shape y = pre ++ [out] /\ wf y.
Proof.
  intros HW Hx Hb. unfold F_linear. rewrite HW, Hx.
  rewrite last_dim_snoc, lead_dims_snoc.
  destruct (decide _) as [_|Hn].
  2:{ exfalso. apply Hn. split; [|done]. by destruct pre. }
  eexists. split; [reflexivity|]. split; [done|].
  unfold wf. simpl. rewrite numel_app. simpl.
  rewrite (length_concat_rows out).
  - rewrite length_fmap, length_chunks. lia.
  - apply Forall_fmap, Forall_true. intros r. simpl.
    rewrite length_affine, length_chunks.
    destruct b; [rewrite Hb|rewrite length_replicate]; lia.
Qed.

Lemma deref_ok h l sh : param_ok h l sh ->
  exists t, deref h l = inr t /\ shape t = sh /\ wf t.
Proof. intros (t & Ht & ? & ?). exists t. unfold deref. by rewrite Ht. Qed.

Lemma Linear_forward_ok h lin inp out bias x pre :
  linear_ok h lin inp out bias -> shape x = pre ++ [inp] ->
  exists y, Linear_forward h lin x = inr y /\ shape y = pre ++ [out] /\ wf y.
Proof.
  intros [HW Hb] Hx. unfold Linear_forward.
  apply deref_ok in HW as (W & -> & HWs & HWw). simpl.
  destruct (lin_bias lin) as [bl|].
  - destruct Hb as [_ Hb]. apply deref_ok in Hb as (bt & -> & Hbs & Hbw). simpl.
    apply (F_linear_ok x W (Some bt) pre inp out); [done..|].
    unfold wf in Hbw. rewrite Hbw, Hbs. simpl. lia.
  - simpl. by apply (F_linear_ok x W None pre inp out).
Qed.

Lemma wf_tmap f t : wf t -> wf (tmap f t).
Proof. unfold wf, tmap. simpl. by rewrite length_fmap. Qed.

(** The mixture of lines 114-118 on well-shaped logits. *)
Lemma mixture_ok (N E V : nat) (logit pl : tensor) :
  0 < E -> 0 < V ->
  numel (shape logit) = N * E * V -> wf logit ->
  numel (shape pl) = N * E -> wf pl ->
  exists prior_logit lg prob0 pu pe pm prob,
    view_infer pl [Z.of_nat E] = inr prior_logit /\
    view_infer logit [Z.of_nat V] = inr lg /\
    view_infer (softmax_last lg) [Z.of_nat E; Z.of_nat V] = inr prob0 /\
    unsqueeze (softmax_last prior_logit) 2 = inr pu /\
    expand_as pu prob0 = inr pe /\
    mul prob0 pe = inr pm /\
    sum_dim pm 1 = inr prob /\
    prob = Tensor [N; V] (mixture_data N E V (data logit) (data pl)).
Proof.
  intros HE HV Hlg Hwlg Hpl Hwpl.
  eexists _, _, _, _, _, _, _.
  split. { apply (view_infer_ok pl N [E]); simpl; lia. }
  split. { apply (view_infer_ok logit (N * E) [V]); simpl; lia. }
  split. { apply (view_infer_ok _ N [E; V]); simpl; lia. }
  split. { reflexivity. }
  split.
  { unfold expand_as. cbn -[expand_data chunks]. rewrite expand_data_last3; [reflexivity|].
    rewrite (length_concat_rows E).
    - rewrite length_fmap, length_chunks. simpl. lia.
    - eapply Forall_impl; [apply (softmax_rows_dist (N * 1) E (data pl))|].
      + done.
      + rewrite Hwpl. lia.
      + by intros ? [? _]. }
  split. { unfold mul. simpl. rewrite decide_True by done. reflexivity. }
  split. { reflexivity. }
  simpl. unfold mixture_data. f_equal.
  replace (N * E * 1) with (N * E) by lia.
  replace (N * 1) with N by lia.
  replace (V * 1) with V by lia. done.
Qed.

(** ** Total correctness of the calls, and the loop over the layers *)

Section Hoare.
Context {S : Type}.

Lemma post_ret {A} (x : A) (s : S) Q : Q x s -> post (mret x) s Q.
Proof. intros HQ. by exists x, s. Qed.

Lemma post_bind {A B} (c : ST S A) (k : A -> ST S B) s Q :
  post c s (fun x s' => post (k x) s' Q) -> post (c ≫= k) s Q.
Proof.
  intros (x & s' & Hc & y & s'' & Hk & HQ). exists y, s''. split; [|done].
  unfold mbind, ST_bind. by rewrite Hc.
Qed.

Lemma post_lift {A} (r : result A) (x : A) (s : S) Q :
  r = inr x -> Q x s -> post (lift r) s Q.
Proof. intros -> HQ. by exists x, s. Qed.

Lemma post_mono {A} (c : ST S A) s (Q Q' : A -> S -> Prop) :
  post c s Q -> (forall x s', Q x s' -> Q' x s') -> post c s Q'.
Proof. intros (x & s' & Hc & HQ) HQQ. exists x, s'. auto. Qed.

End Hoare.

Section ForwardCalls.
Context `{ImportsOk}.

Lemma post_attr {A} (f : RNNModel -> A) (s : fstate) Q :
  Q (f (self s)) s -> post (attr f) s Q.
Proof. intros HQ. by eexists _, _. Qed.

Lemma post_record c (s : fstate) Q :
  Q tt (mkFstate (self s) (gen s) (calls s ++ [c])) -> post (record c) s Q.
Proof. intros HQ. by eexists _, _. Qed.

Lemma post_lockdrop x p mc T B F (s : fstate) Q :
  shape x = [T; B; F] -> wf x -> prob_ok p ->
  (forall y g, shape y = [T; B; F] -> wf y ->
     Q y (mkFstate (self s) g (calls s ++ [CallLockdrop x p mc y]))) ->
  post (call_lockdrop x p mc) s Q.
Proof.
  intros Hx Hw Hp HQ.
  destruct (lockdrop_ok (training (self s)) x p mc (gen s) T B F Hx Hw Hp)
    as (y & g & Heq & Hy & Hwy).
  eexists _, _. split; [|by apply (HQ y g)].
  unfold call_lockdrop. by rewrite Heq.
Qed.

Lemma post_rnn h l r x hc T B (s : fstate) Q :
  rnn_ok h r -> 0 < T ->
  shape x = [T; B; input_size r] -> wf x ->
  shape (fst hc) = [1; B; hidden_size r] -> wf (fst hc) ->
  shape (snd hc) = [1; B; hidden_size r] -> wf (snd hc) ->
  (forall y nh g, shape y = [T; B; hidden_size r] -> wf y ->
     Q (y, nh) (mkFstate (self s) g (calls s ++ [CallRnn l r x hc y nh]))) ->
  post (call_rnn h l r x hc) s Q.
Proof.
  intros Hr HT Hx Hw H1 H2 H3 H4 HQ.
  destruct (rnn_forward_ok (training (self s)) h r x hc (gen s) T B Hr HT Hx Hw H1 H2 H3 H4)
    as (y & nh & g & Heq & Hy & Hwy & _).
  eexists _, _. split; [|by apply (HQ y nh g)].
  unfold call_rnn. by rewrite Heq.
Qed.

Lemma post_linear mk (f : tensor -> tensor) h lin inp out bias x pre (s : fstate) Q :
  (forall y, shape (f y) = shape y) -> (forall y, wf y -> wf (f y)) ->
  linear_ok h lin inp out bias -> shape x = pre ++ [inp] ->
  (forall y, shape y = pre ++ [out] -> wf y ->
     Q y (mkFstate (self s) (gen s) (calls s ++ [mk x y]))) ->
  post (call_linear mk f h lin x) s Q.
Proof.
  intros Hf1 Hf2 Hl Hx HQ.
  destruct (Linear_forward_ok h lin inp out bias x pre Hl Hx) as (y & Heq & Hy & Hwy).
  eexists _, _. split.
  - unfold call_linear. unfold mbind, ST_bind. rewrite Heq. reflexivity.
  - apply HQ; [by rewrite Hf1 | by apply Hf2].
Qed.

Lemma post_embedded h input p usedp mc V D T B (s : fstate) Q :
  param_ok h (emb_weight (encoder (self s))) [V; D] ->
  lshape input = [T; B] -> length (ldata input) = T * B ->
  Forall (fun tok => (0 <= tok < Z.of_nat V)%Z) (ldata input) ->
  prob_ok p ->
  (forall y g, shape y = [T; B; D] -> wf y ->
     Q y (mkFstate (self s) g (calls s ++ [CallEmbeddedDropout input p usedp mc y]))) ->
  post (call_embedded_dropout h input p usedp mc) s Q.
Proof.
  intros Hw Hs Hl Ht Hp HQ.
  destruct (embedded_dropout_ok h (encoder (self s)) input p usedp mc (gen s) V D T B
              Hw Hs Hl Ht Hp) as (y & g & Heq & Hy & Hwy).
  eexists _, _. split; [|by apply (HQ y g)].
  unfold call_embedded_dropout. by rewrite Heq.
Qed.

Lemma prob_ok_p_or_0 ud p : prob_ok p -> prob_ok (p_or_0 ud p).
Proof. intros Hp. destruct ud; [done|]. unfold prob_ok. simpl. lra. Qed.

Lemma set_rnns_id m : set_rnns m (rnns m) = m.
Proof. by destruct m. Qed.

Lemma rnn_ok_set h r v : rnn_ok h r -> rnn_ok h (set_rnn_mc_eval r v).
Proof. done. Qed.

Lemma layer_input_width m l :
  nlayers m = Z.of_nat (length (rnns m)) -> l < length (rnns m) ->
  layer_input m l = width_before m l.
Proof.
  intros Hn Hl. unfold layer_input, width_before, layer_width.
  destruct l as [|l]; [done|].
  destruct (Z.eqb_spec (Z.of_nat (S l)) 0); [lia|].
  destruct (Z.eqb_spec (Z.of_nat l) (nlayers m - 1)); [lia|]. done.
Qed.

Lemma layers_post h m hidden T B :
  model_ok h m -> hidden_ok m hidden B -> 0 < T ->
  forall todo l rs v g cs,
    l + length todo = length (rnns m) ->
    drop l (rnns m) = todo -> drop l rs = todo -> length rs = length (rnns m) ->
    shape (raw_output v) = [T; B; width_before m l] -> wf (raw_output v) ->
    post (layers h hidden todo l v) (mkFstate (set_rnns m rs) g cs)
      (fun v' s' => exists tr out,
         calls s' = cs ++ tr /\
         self s' = set_rnns m
           (take l rs ++ ((fun r => set_rnn_mc_eval r (mc_eval m)) <$> todo)) /\
         layer_trace m hidden l (raw_output v) todo tr out /\
         v' = mkLoop out
                (new_hidden v ++ (rc_new_hidden <$> rnn_calls tr))
                (raw_outputs v ++ (rc_output <$> rnn_calls tr))
                (outputs v ++ (lc_output <$> lockdrop_calls tr)) /\
         shape out = [T; B; width_before m (length (rnns m))] /\ wf out).
Proof.
  intros Hok Hhid HT. destruct Hok as [Hsz [Hnl HN] Henc Hrnns Hpr Hlat Hdec Hp].
  destruct Hhid as [Hhl Hhs].
  induction todo as [|r todo IH]; intros l rs v g cs Hlen Hdm Hdr Hrs Hx Hw.
  - simpl in Hlen. apply post_ret. exists [], (raw_output v).
    cbn. rewrite !app_nil_r.
    split; [done|]. split.
    { by rewrite take_ge by lia. }
    split; [constructor|]. split; [by destruct v|].
    replace (length (rnns m)) with l by lia. done.
  - simpl in Hlen.
    assert (Hml : rnns m !! l = Some r).
    { rewrite <- (take_drop l (rnns m)), Hdm.
      rewrite lookup_app_r; rewrite length_take; [|lia].
      replace (l - l `min` length (rnns m)) with 0 by lia. done. }
    assert (Hrl : rs !! l = Some r).
    { rewrite <- (take_drop l rs), Hdr.
      rewrite lookup_app_r; rewrite length_take; [|lia].
      replace (l - l `min` length rs) with 0 by lia. done. }
    destruct (Hrnns l r Hml) as (Hrok & Hin & Hwd).
    assert (Hhc : exists hc, hidden !! l = Some hc).
    { apply lookup_lt_is_Some. lia. }
    destruct Hhc as [hc Hhc].
    destruct (Hhs l hc Hhc) as (Hh1 & Hh2 & Hh3 & Hh4).
    cbn [layers].
    apply post_bind, post_attr. cbn [self mc_eval set_rnns].
    apply post_bind. unfold setattr_mc_eval at 1.
    eexists _, _. split.
    { cbn [self rnns set_rnns]. rewrite Hrl. reflexivity. }
    cbn [self gen calls set_rnns rnns].
    apply post_bind. eapply post_lift; [by rewrite Hhc|].
    apply post_bind.
    eapply (post_rnn h l _ (raw_output v) hc T B).
    { by apply rnn_ok_set. }
    { done. }
    { cbn. rewrite Hin, layer_input_width by (done || lia). done. }
    { done. }
    { cbn. by rewrite Hwd. }
    { done. }
    { cbn. by rewrite Hwd. }
    { done. }
    intros y nh g' Hy Hwy. cbn [self gen calls fst snd].
    cbn [set_rnn_mc_eval hidden_size] in Hy.
    apply post_bind, post_attr. cbn [self nlayers set_rnns].
    set (rs' := <[l:=set_rnn_mc_eval r (mc_eval m)]> rs).
    assert (Hdr' : drop (S l) rs' = todo).
    { unfold rs'. rewrite drop_insert_lt by lia.
      rewrite <- (Nat.add_1_r l), <- drop_drop, Hdr. done. }
    assert (Hdm' : drop (S l) (rnns m) = todo).
    { rewrite <- (Nat.add_1_r l), <- drop_drop, Hdm. done. }
    assert (Hrs' : length rs' = length (rnns m)).
    { unfold rs'. by rewrite length_insert. }
    assert (Htk : take (S l) rs' = take l rs ++ [set_rnn_mc_eval r (mc_eval m)]).
    { unfold rs'. erewrite take_S_r.
      - rewrite take_insert_ge by lia. done.
      - apply list_lookup_insert_eq. lia. }
    destruct (Z.eqb_spec (Z.of_nat l) (nlayers m - 1)) as [Hlast|Hinner]; cbn [negb].
    + (* the last layer *)
      eapply post_mono.
      { apply (IH (S l) rs'); try done; try lia.
        cbn [raw_output]. rewrite Hy, Hwd. done. }
      intros v' s' (tr & out & Hc & Hs & Htr & Hv & Hout & Hwout).
      cbn [raw_output new_hidden raw_outputs outputs] in *.
      eexists (_ :: tr), out. split; [|split; [|split; [|split]]].
      * rewrite Hc. rewrite <- app_assoc. done.
      * rewrite Hs, Htk. rewrite <- app_assoc. done.
      * eapply layer_trace_last; done.
      * rewrite Hv. cbn. rewrite <- !app_assoc. done.
      * done.
    + (* an inner layer *)
      apply post_bind, post_attr. apply post_bind, post_attr. apply post_bind, post_attr.
      cbn [self dropouth use_dropout mc_eval set_rnns].
      apply post_bind.
      eapply (post_lockdrop y _ _ T B); [done|done| |].
      { destruct Hp as (_ & _ & Hph & _). by apply prob_ok_p_or_0. }
      intros z g'' Hz Hwz. cbn [self gen calls].
      eapply post_mono.
      { apply (IH (S l) rs'); try done; try lia.
        cbn [raw_output]. rewrite Hz, Hwd. done. }
      intros v' s' (tr & out & Hc & Hs & Htr & Hv & Hout & Hwout).
      cbn [raw_output new_hidden raw_outputs outputs] in *.
      eexists (_ :: _ :: tr), out. split; [|split; [|split; [|split]]].
      * rewrite Hc. rewrite <- !app_assoc. done.
      * rewrite Hs, Htk. rewrite <- app_assoc. done.
      * eapply layer_trace_inner; done.
      * rewrite Hv. cbn. rewrite <- !app_assoc. done.
      * done.
Qed.

End ForwardCalls.

(** ** forward returns, and what it returns *)

Section ForwardSpec.
Context `{ImportsOk}.

Lemma width_before_last m :
  nlayers m = Z.of_nat (length (rnns m)) -> 0 < length (rnns m) ->
  width_before m (length (rnns m)) = Z.to_nat (nhidlast m).
Proof.
  intros Hn Hl. destruct (length (rnns m)) as [|n] eqn:E; [lia|].
  unfold width_before, layer_width.
  destruct (Z.eqb_spec (Z.of_nat n) (nlayers m - 1)); [done|lia].
Qed.

Lemma forward_spec h m input hidden T B g cs return_h return_prob :
  model_ok h m -> input_ok m input T B -> hidden_ok m hidden B ->
  post (forward h input hidden return_h return_prob) (mkFstate m g cs)
    (fun ret s' =>
       exists emb0 emb tr out G lat0 lat1 lv logit pl,
         self s' = set_rnns m ((fun r => set_rnn_mc_eval r (mc_eval m)) <$> rnns m) /\
         calls s' = cs ++
           CallEmbeddedDropout input (dropoute m) (training m && use_dropout m)
             (mc_eval m) emb0
           :: CallLockdrop emb0 (p_or_0 (use_dropout m) (dropouti m)) (mc_eval m) emb
           :: tr ++
           [CallLockdrop out (p_or_0 (use_dropout m) (dropout m)) (mc_eval m) G;
            CallLatent G lat0;
            CallLockdrop lat0 (p_or_0 (use_dropout m) (dropoutl m)) (mc_eval m) lat1;
            CallDecoder lv logit;
            CallPrior G pl] /\
         layer_trace m hidden 0 emb (rnns m) tr out /\
         ret = (let mix := mixture_data (T * B) (Z.to_nat (n_experts m))
                             (Z.to_nat (ntoken m)) (data logit) (data pl) in
                let mo := Tensor [T; B; Z.to_nat (ntoken m)]
                            (if return_prob then mix
                             else (fun p => ln (p + 1e-8))%R <$> mix) in
                if return_h
                then Ret4 mo (rc_new_hidden <$> rnn_calls tr) (rc_output <$> rnn_calls tr)
                       ((lc_output <$> lockdrop_calls tr) ++ [G])
                else Ret2 mo (rc_new_hidden <$> rnn_calls tr)) /\
         length (data logit) = T * B * Z.to_nat (n_experts m) * Z.to_nat (ntoken m) /\
         length (data pl) = T * B * Z.to_nat (n_experts m)).
Proof.
  intros Hok (HT & HB & Hish & Hilen & Htok) Hhid.
  pose proof Hok as [Hsz [Hnl HN] Henc Hrnns Hpr Hlat Hdec Hp].
  destruct Hsz as (HzD & HzHd & HzHL & HzV & HzE).
  destruct Hp as (Hp & Hpi & Hph & Hpe & Hpdl).
  assert (HD : ninp m = Z.of_nat (Z.to_nat (ninp m))) by lia.
  assert (HV : ntoken m = Z.of_nat (Z.to_nat (ntoken m))) by lia.
  assert (HE : n_experts m = Z.of_nat (Z.to_nat (n_experts m))) by lia.
  assert (HED : Z.to_nat (n_experts m * ninp m)
                = Z.to_nat (n_experts m) * Z.to_nat (ninp m)) by lia.
  rewrite HED in Hlat.
  set (D := Z.to_nat (ninp m)) in *.
  set (V := Z.to_nat (ntoken m)) in *.
  set (E := Z.to_nat (n_experts m)) in *.
  set (HL := Z.to_nat (nhidlast m)) in *.
  assert (0 < D /\ 0 < V /\ 0 < E) as (HD0 & HV0 & HE0) by (unfold D, V, E; lia).
  unfold forward.
  apply post_bind. eapply post_lift; [unfold size; rewrite Hish; reflexivity|].
  do 4 (apply post_bind, post_attr). cbn [self].
  apply post_bind.
  eapply (post_embedded h input _ _ _ V D T B); [done|done|done| |done|].
  { eapply Forall_impl; [exact Htok|]. intros tok. simpl. lia. }
  intros emb0 g1 Hemb0 Hwemb0. cbn [self gen calls].
  do 3 (apply post_bind, post_attr). cbn [self].
  apply post_bind.
  eapply (post_lockdrop emb0 _ _ T B D); [done|done|by apply prob_ok_p_or_0|].
  intros emb g2 Hemb Hwemb. cbn [self gen calls].
  apply post_bind, post_attr. cbn [self].
  apply post_bind.
  rewrite <- (set_rnns_id m) at 2.
  eapply post_mono.
  { apply (layers_post h m hidden T B Hok Hhid HT (rnns m) 0 (rnns m)
             (mkLoop emb [] [] [])); try done. }
  intros v s1 (tr & out & Hc1 & Hs1 & Htr & Hv & Hout & Hwout).
  rewrite take_0, app_nil_l in Hs1. cbn [raw_output new_hidden raw_outputs outputs] in Hv.
  rewrite !app_nil_l in Hv. subst v.
  rewrite width_before_last in Hout by done. fold HL in Hout.
  destruct s1 as [m1 g3 cs1]. cbn [self calls] in Hc1, Hs1. subst m1 cs1.
  cbn [raw_output new_hidden raw_outputs outputs].
  do 3 (apply post_bind, post_attr). cbn [self dropout use_dropout mc_eval set_rnns].
  apply post_bind.
  eapply (post_lockdrop out _ _ T B HL); [done|done|by apply prob_ok_p_or_0|].
  intros G g4 HG HwG. cbn [self gen calls].
  apply post_bind, post_attr. cbn [self latent set_rnns].
  apply post_bind.
  eapply (post_linear CallLatent (tmap tanh) h (latent m) HL (E * D) true G [T; B]);
    [done|apply wf_tmap|done|done|].
  intros lat0 Hlat0 Hwlat0. cbn [self gen calls].
  do 3 (apply post_bind, post_attr). cbn [self dropoutl use_dropout mc_eval set_rnns].
  apply post_bind.
  eapply (post_lockdrop lat0 _ _ T B (E * D)); [done|done|by apply prob_ok_p_or_0|].
  intros lat1 g5 Hlat1 Hwlat1. cbn [self gen calls].
  do 2 (apply post_bind, post_attr). cbn [self decoder ninp set_rnns].
  apply post_bind. eapply post_lift.
  { rewrite HD. apply (view_infer_ok lat1 (T * B * E) [D]).
    - rewrite Hlat1. simpl. lia.
    - simpl. lia. }
  apply post_bind.
  eapply (post_linear CallDecoder (fun y => y) h (decoder m) D V true _ [T * B * E]);
    [done|done|done|done|].
  intros logit Hlogit Hwlogit. cbn [self gen calls].
  do 2 (apply post_bind, post_attr). cbn [self prior n_experts set_rnns].
  apply post_bind.
  eapply (post_linear CallPrior (fun y => y) h (prior m) HL E false G [T; B]);
    [done|done|done|done|].
  intros pl Hpl Hwpl. cbn [self gen calls].
  destruct (mixture_ok (T * B) E V logit pl HE0 HV0) as
    (prior_logit & lg & prob0 & pu & pe & pm & prob & E1 & E2 & E3 & E4 & E5 & E6 & E7 & E8).
  { rewrite Hlogit. simpl. lia. }
  { done. }
  { rewrite Hpl. simpl. lia. }
  { done. }
  apply post_bind. eapply post_lift; [rewrite HE; exact E1|].
  apply post_bind, post_attr. cbn [self ntoken set_rnns].
  apply post_bind. eapply post_lift; [rewrite HV; exact E2|].
  do 2 (apply post_bind, post_attr). cbn [self ntoken n_experts set_rnns].
  apply post_bind. eapply post_lift; [rewrite HE, HV; exact E3|].
  apply post_bind. eapply post_lift; [exact E4|].
  apply post_bind. eapply post_lift; [exact E5|].
  apply post_bind. eapply post_lift; [exact E6|].
  apply post_bind. eapply post_lift; [exact E7|].
  apply post_bind, post_attr. cbn [self ntoken set_rnns].
  pose proof (mixture_data_rows (T * B) E V (data logit) (data pl) HE0 HV0) as [Hmlen _].
  { rewrite Hwlogit, Hlogit. simpl. lia. }
  { rewrite Hwpl, Hpl. simpl. lia. }
  apply post_bind. eapply post_lift.
  { rewrite HV. apply (view_infer_ok _ T [B; V]).
    - subst prob. destruct return_prob; simpl; lia.
    - simpl. lia. }
  assert (Hdata : data (if return_prob then prob else log_add 1e-8 prob)
                  = if return_prob then mixture_data (T * B) E V (data logit) (data pl)
                    else (fun p => ln (p + 1e-8))%R <$> mixture_data (T * B) E V (data logit) (data pl)).
  { subst prob. by destruct return_prob. }
  rewrite Hdata.
  destruct return_h; apply post_ret;
    eexists emb0, emb, tr, out, G, lat0, lat1, _, logit, pl; cbn [self calls];
    (split; [done|]); (split; [by rewrite <- !app_assoc|]); (split; [done|]);
    (split; [done|]); split.
  all: try (rewrite Hwlogit, Hlogit; simpl; lia).
  all: try (rewrite Hwpl, Hpl; simpl; lia).
Qed.

End ForwardSpec.

(** ** The calls of the loop over the layers *)

Lemma rnn_calls_app a b : rnn_calls (a ++ b) = rnn_calls a ++ rnn_calls b.
Proof. apply omap_app. Qed.
Lemma embedded_calls_app a b : embedded_calls (a ++ b) = embedded_calls a ++ embedded_calls b.
Proof. apply omap_app. Qed.

Lemma rnn_calls_rnn l r x hc y nh tr :
  rnn_calls (CallRnn l r x hc y nh :: tr) = mkRnnCall l r x hc y nh :: rnn_calls tr.
Proof. reflexivity. Qed.
Lemma rnn_calls_lockdrop x p mc y tr :
  rnn_calls (CallLockdrop x p mc y :: tr) = rnn_calls tr.
Proof. reflexivity. Qed.
Lemma lockdrop_calls_rnn l r x hc y nh tr :
  lockdrop_calls (CallRnn l r x hc y nh :: tr) = lockdrop_calls tr.
Proof. reflexivity. Qed.
Lemma lockdrop_calls_lockdrop x p mc y tr :
  lockdrop_calls (CallLockdrop x p mc y :: tr) = mkLockdropCall x p mc y :: lockdrop_calls tr.
Proof. reflexivity. Qed.

Ltac read_calls :=
  rewrite ?rnn_calls_rnn, ?rnn_calls_lockdrop, ?lockdrop_calls_rnn,
    ?lockdrop_calls_lockdrop.

Section LayerTrace.
Variables (m : RNNModel) (hidden : list hpair).

Lemma layer_trace_nil l x tr out :
  layer_trace m hidden l x [] tr out -> tr = [] /\ out = x.
Proof. by inversion 1. Qed.

(** The layer without dropout on its output ends the loop. *)
Lemma layer_trace_last_inv l x r todo tr out :
  layer_trace m hidden l x (r :: todo) tr out ->
  Z.of_nat (l + length (r :: todo)) = nlayers m ->
  Z.of_nat l = (nlayers m - 1)%Z -> todo = [].
Proof. intros _ Hn Hl. simpl in Hn. destruct todo; [done|simpl in Hn; lia]. Qed.

Lemma layer_trace_other l x todo tr out :
  layer_trace m hidden l x todo tr out ->
  embedded_calls tr = [] /\ latent_calls tr = [] /\
  decoder_calls tr = [] /\ prior_calls tr = [].
Proof. induction 1; done. Qed.

Lemma layer_trace_mc_eval l x todo tr out :
  layer_trace m hidden l x todo tr out ->
  Forall (fun c => forall v, call_mc_eval c = Some v -> v = Some (mc_eval m)) tr.
Proof.
  induction 1; [constructor|..]; repeat constructor; try done;
    simpl; intros v Hv; by inversion Hv.
Qed.

Lemma layer_trace_rnn_length l x todo tr out :
  layer_trace m hidden l x todo tr out -> length (rnn_calls tr) = length todo.
Proof. induction 1; read_calls; simpl; auto. Qed.

Lemma layer_trace_lockdrop_length l x todo tr out :
  layer_trace m hidden l x todo tr out ->
  Z.of_nat (l + length todo) = nlayers m ->
  length (lockdrop_calls tr) = length todo - 1.
Proof.
  induction 1 as [|l x r todo hc y nh tr out Hh Hl Htr IH
                  |l x r todo hc y nh z tr out Hh Hl Htr IH]; intros Hn; [done|..].
  - assert (todo = []) as -> by (destruct todo; [done|simpl in Hn; lia]).
    apply layer_trace_nil in Htr as [-> _]. done.
  - read_calls. simpl in *. rewrite IH by lia.
    destruct todo; [simpl in Hn; lia|simpl; lia].
Qed.

Lemma layer_trace_rnn_lookup l x todo tr out j e :
  layer_trace m hidden l x todo tr out ->
  rnn_calls tr !! j = Some e ->
  rc_layer e = l + j /\
  (exists r, todo !! j = Some r /\ rc_module e = set_rnn_mc_eval r (mc_eval m)) /\
  hidden !! (l + j) = Some (rc_hidden e).
Proof.
  intros Htr. revert j.
  induction Htr as [|l x r todo hc y nh tr out Hh Hl Htr IH
                    |l x r todo hc y nh z tr out Hh Hl Htr IH]; intros j; [done|..];
    read_calls; destruct j as [|j]; simpl; intros He.
  - inversion He; subst; simpl. rewrite Nat.add_0_r. eauto.
  - destruct (IH j He) as (-> & Hr & Hhd).
    rewrite <- Nat.add_succ_comm. done.
  - inversion He; subst; simpl. rewrite Nat.add_0_r. eauto.
  - destruct (IH j He) as (-> & Hr & Hhd).
    rewrite <- Nat.add_succ_comm. done.
Qed.

Lemma layer_trace_first l x todo tr out e :
  layer_trace m hidden l x todo tr out ->
  rnn_calls tr !! 0 = Some e -> rc_input e = x.
Proof.
  destruct 1; [done|..]; read_calls; simpl; intros He; by inversion He.
Qed.

(** Between two consecutive layers: one dropout call, fed with the output
    of the first, feeding the second. *)
Lemma layer_trace_between l x todo tr out j e e' :
  layer_trace m hidden l x todo tr out ->
  Z.of_nat (l + length todo) = nlayers m ->
  rnn_calls tr !! j = Some e -> rnn_calls tr !! S j = Some e' ->
  exists d, lockdrop_calls tr !! j = Some d /\
            lc_input d = rc_output e /\
            lc_dropout d = p_or_0 (use_dropout m) (dropouth m) /\
            lc_mc_eval d = mc_eval m /\
            rc_input e' = lc_output d.
Proof.
  intros Htr. revert j e e'.
  induction Htr as [|l x r todo hc y nh tr out Hh Hl Htr IH
                    |l x r todo hc y nh z tr out Hh Hl Htr IH]; intros j e e' Hn; [done|..];
    read_calls.
  - assert (todo = []) as -> by (destruct todo; [done|simpl in Hn; lia]).
    apply layer_trace_nil in Htr as [-> _]. done.
  - destruct j as [|j]; simpl; intros He He'.
    + inversion He; subst; simpl.
      eexists. split; [reflexivity|]. simpl.
      repeat split. eapply layer_trace_first; done.
    + apply IH; [simpl in Hn; lia|done|done].
Qed.

(** What leaves the loop is the output of the last layer. *)
Lemma layer_trace_out l x r todo tr out :
  layer_trace m hidden l x (r :: todo) tr out ->
  Z.of_nat (l + length (r :: todo)) = nlayers m ->
  exists e, rnn_calls tr !! length todo = Some e /\ rc_output e = out.
Proof.
  remember (r :: todo) as td eqn:Etd. intros Htr. revert r todo Etd.
  induction Htr as [|l x r0 todo0 hc y nh tr out Hh Hl Htr IH
                    |l x r0 todo0 hc y nh z tr out Hh Hl Htr IH];
    intros r todo Etd Hn; [done|..]; inversion Etd; subst; read_calls.
  - assert (todo = []) as -> by (destruct todo; [done|simpl in Hn; lia]).
    apply layer_trace_nil in Htr as [-> ->]. simpl. eauto.
  - destruct todo as [|r' todo]; [simpl in Hn; lia|].
    destruct (IH r' todo eq_refl) as (e & He & Hout); [simpl in *; lia|].
    exists e. done.
Qed.

End LayerTrace.

(** ** Allocation and in-place initialisation *)

(** Construction: allocation only extends the heap, and the in-place
    initialisers keep the shapes. *)

Lemma heap_ext_refl h : heap_ext h h.
Proof. split; [lia|done]. Qed.

Lemma heap_ext_trans h1 h2 h3 : heap_ext h1 h2 -> heap_ext h2 h3 -> heap_ext h1 h3.
Proof. intros [? H12] [? H23]. split; [lia|]. intros l sh Hl. by apply H23, H12. Qed.

Lemma wf_zeros sh : wf (zeros sh).
Proof. unfold wf, zeros. simpl. apply length_replicate. Qed.

Lemma mapM_dim_of_nonneg (dims : list Z) :
  Forall (fun d => (0 <= d)%Z) dims ->
  mapM (M:=result) dim_of dims = inr (Z.to_nat <$> dims).
Proof.
  induction 1 as [|d dims Hd _ IH]; [done|].
  rewrite mapM_result_cons, IH. unfold dim_of.
  destruct (Z.ltb_spec d 0); [lia|]. done.
Qed.

Section Allocation.
Context `{Imports}.

Lemma post_new_tensor dims (h : heap) (g : G) Q :
  Forall (fun d => (0 <= d)%Z) dims ->
  (forall h', heap_ext h h' -> length h < length h' ->
     param_ok h' (length h) (Z.to_nat <$> dims) -> Q (length h) (h', g)) ->
  post (new_tensor dims) (h, g) Q.
Proof.
  intros Hd HQ. unfold new_tensor. apply post_bind.
  eapply post_lift; [by apply mapM_dim_of_nonneg|].
  exists (length h), (h ++ [zeros (Z.to_nat <$> dims)], g).
  split; [reflexivity|]. apply HQ.
  - split; [rewrite length_app; lia|].
    intros l sh (t & Ht & Hs & Hw). exists t. split; [|done].
    rewrite lookup_app_l; [done|]. by eapply lookup_lt_Some.
  - rewrite length_app. simpl. lia.
  - exists (zeros (Z.to_nat <$> dims)). split; [|split; [done|apply wf_zeros]].
    rewrite lookup_app_r by lia. by rewrite Nat.sub_diag.
Qed.

Lemma param_ok_insert h l sh d :
  param_ok h l sh -> length d = numel sh ->
  heap_ext h (<[l := Tensor sh d]> h) /\ param_ok (<[l := Tensor sh d]> h) l sh.
Proof.
  intros (t & Ht & Hs & Hw) Hd.
  assert (Hl : l < length h) by (by eapply lookup_lt_Some).
  split; [split|].
  - by rewrite length_insert.
  - intros l' sh' (t' & Ht' & Hs' & Hw').
    destruct (decide (l' = l)) as [->|Hne].
    + exists (Tensor sh d). rewrite list_lookup_insert_eq by done.
      split; [done|]. simplify_eq. done.
    + exists t'. rewrite list_lookup_insert_ne by done. done.
  - exists (Tensor sh d). by rewrite list_lookup_insert_eq.
Qed.

Lemma post_uniform_ l lo hi sh (h : heap) (g : G) Q :
  param_ok h l sh ->
  (forall h' g', heap_ext h h' -> length h' = length h -> Q tt (h', g')) ->
  post (uniform_ l lo hi) (h, g) Q.
Proof.
  intros Hl HQ. pose proof Hl as (t & Ht & Hs & Hw).
  unfold uniform_, post. unfold deref. rewrite Ht. simpl.
  destruct (rand g) as [u g']. eexists _, _. split; [reflexivity|].
  rewrite Hs. apply HQ; [|by rewrite length_insert].
  apply param_ok_insert; [done|]. unfold fill. by rewrite length_fmap, length_seq.
Qed.

Lemma post_normal_ l sh (h : heap) (g : G) Q :
  param_ok h l sh ->
  (forall h' g', heap_ext h h' -> length h' = length h -> Q tt (h', g')) ->
  post (normal_ l) (h, g) Q.
Proof.
  intros Hl HQ. pose proof Hl as (t & Ht & Hs & Hw).
  unfold normal_, post. unfold deref. rewrite Ht. simpl.
  destruct (randn g) as [u g']. eexists _, _. split; [reflexivity|].
  rewrite Hs. apply HQ; [|by rewrite length_insert].
  apply param_ok_insert; [done|]. unfold fill. by rewrite length_fmap, length_seq.
Qed.

Lemma post_fill_ l v sh (h : heap) (g : G) Q :
  param_ok h l sh ->
  (forall h', heap_ext h h' -> length h' = length h -> Q tt (h', g)) ->
  post (fill_ l v) (h, g) Q.
Proof.
  intros Hl HQ. pose proof Hl as (t & Ht & Hs & Hw).
  unfold fill_, post. unfold deref. rewrite Ht. simpl.
  eexists _, _. split; [reflexivity|].
  rewrite Hs. apply HQ; [|by rewrite length_insert].
  apply param_ok_insert; [done|]. apply length_replicate.
Qed.

Lemma inv_sqrt_ok n : (0 < n)%Z -> exists r, inv_sqrt n = inr r.
Proof.
  intros Hn. unfold inv_sqrt. destruct (Z.eqb_spec n 0); [lia|]. eauto.
Qed.

Lemma post_new_Embedding n d (h : heap) (g : G) Q :
  (0 <= n)%Z -> (0 <= d)%Z ->
  (forall e h' g', heap_ext h h' ->
     param_ok h' (emb_weight e) [Z.to_nat n; Z.to_nat d] ->
     num_embeddings e = Z.to_nat n -> embedding_dim e = Z.to_nat d -> Q e (h', g')) ->
  post (new_Embedding n d) (h, g) Q.
Proof.
  intros Hn Hd HQ. unfold new_Embedding.
  apply post_bind, post_new_tensor; [by repeat constructor|].
  intros h1 He1 _ Hp1. apply post_bind.
  eapply post_normal_; [exact Hp1|].
  intros h2 g2 He2 _. apply post_ret. apply HQ; [| |done|done].
  - by eapply heap_ext_trans.
  - simpl. by apply He2.
Qed.

Lemma post_new_Linear inp out bias (h : heap) (g : G) Q :
  (0 < inp)%Z -> (0 <= out)%Z ->
  (forall lin h' g', heap_ext h h' ->
     linear_ok h' lin (Z.to_nat inp) (Z.to_nat out) bias ->
     length h <= lin_weight lin ->
     in_features lin = Z.to_nat inp -> out_features lin = Z.to_nat out ->
     Q lin (h', g')) ->
  post (new_Linear inp out bias) (h, g) Q.
Proof.
  intros Hi Ho HQ. unfold new_Linear.
  apply post_bind, post_new_tensor; [repeat constructor; lia|].
  intros h1 He1 _ Hp1. apply post_bind.
  destruct (inv_sqrt_ok inp Hi) as [bound Hb].
  destruct bias.
  - eapply (post_mono _ _ (fun b s => exists h2, s = (h2, g) /\ b = Some (length h1) /\
              heap_ext h1 h2 /\ param_ok h2 (length h1) [Z.to_nat out])).
    { unfold fmap, ST_fmap, post.
      destruct (post_new_tensor [out] h1 g
                  (fun l s => exists h2, s = (h2, g) /\ l = length h1 /\
                     heap_ext h1 h2 /\ param_ok h2 (length h1) [Z.to_nat out]))
        as (l & s & Heq & h2 & -> & -> & He2 & Hp2).
      { repeat constructor; lia. }
      { intros h' He' _ Hp'. by exists h'. }
      rewrite Heq. eexists _, _. split; [reflexivity|]. by exists h2. }
    intros b s (h2 & -> & -> & He2 & Hp2).
    apply post_bind. eapply post_lift; [exact Hb|].
    apply post_bind. eapply post_uniform_; [by apply He2|].
    intros h3 g3 He3 _. apply post_bind.
    eapply post_uniform_; [by apply He3|].
    intros h4 g4 He4 _. apply post_ret. apply HQ; [| | |done|done].
    + eauto using heap_ext_trans.
    + split; simpl.
      * by apply He4, He3, He2.
      * split; [done|]. by apply He4, He3.
    + simpl. lia.
  - apply post_ret.
    apply post_bind. eapply post_lift; [exact Hb|].
    apply post_bind. eapply post_uniform_; [done|].
    intros h3 g3 He3 _. apply post_bind, post_ret. apply post_ret.
    apply HQ; [| | |done|done].
    + eauto using heap_ext_trans.
    + split; simpl; [by apply He3|done].
    + simpl. lia.
Qed.

Lemma post_new_LSTM inp hid (h : heap) (g : G) Q :
  (0 <= inp)%Z -> (0 < hid)%Z ->
  (forall r h' g', heap_ext h h' -> rnn_ok h' r ->
     input_size r = Z.to_nat inp -> hidden_size r = Z.to_nat hid ->
     weight_drop r = None -> rnn_mc_eval r = None -> Q r (h', g')) ->
  post (new_LSTM inp hid) (h, g) Q.
Proof.
  intros Hi Hh HQ. unfold new_LSTM.
  apply post_bind, post_new_tensor; [repeat constructor; lia|]. intros h1 E1 _ P1.
  apply post_bind, post_new_tensor; [repeat constructor; lia|]. intros h2 E2 _ P2.
  apply post_bind, post_new_tensor; [repeat constructor; lia|]. intros h3 E3 _ P3.
  apply post_bind, post_new_tensor; [repeat constructor; lia|]. intros h4 E4 _ P4.
  destruct (inv_sqrt_ok hid Hh) as [stdv Hb].
  apply post_bind. eapply post_lift; [exact Hb|].
  apply post_bind. eapply post_uniform_; [by apply E4, E3, E2|]. intros h5 g5 E5 _.
  apply post_bind. eapply post_uniform_; [by apply E5, E4, E3|]. intros h6 g6 E6 _.
  apply post_bind. eapply post_uniform_; [by apply E6, E5, E4|]. intros h7 g7 E7 _.
  apply post_bind. eapply post_uniform_; [by apply E7, E6, E5|]. intros h8 g8 E8 _.
  apply post_ret. apply HQ; try done.
  - eauto 10 using heap_ext_trans.
  - assert (H4 : Z.to_nat (4 * hid) = 4 * Z.to_nat hid) by lia.
    csimpl in P1. csimpl in P2. csimpl in P3. csimpl in P4.
    rewrite H4 in P1, P2, P3, P4.
    repeat split; cbn [weight_ih weight_hh bias_ih bias_hh hidden_size input_size].
    + by apply E8, E7, E6, E5, E4, E3, E2.
    + by apply E8, E7, E6, E5, E4, E3.
    + by apply E8, E7, E6, E5, E4.
    + by apply E8, E7, E6, E5.
Qed.

End Allocation.

(** ** The constructor *)

Section Constructor.
Context `{Imports}.

Lemma mapM_ST_cons {S A B} (f : A -> ST S B) x l :
  mapM (M:=ST S) f (x :: l) = (y ← f x; k ← mapM (M:=ST S) f l; mret (y :: k)).
Proof. reflexivity. Qed.

(** A list of allocations: each element keeps what it established while
    the heap grows. *)
Lemma post_mapM_heap {A B} (f : A -> ST (list tensor * G) B)
    (P : A -> B -> list tensor -> Prop) (xs : list A) (h : list tensor) (g : G) :
  (forall x b h1 h2, P x b h1 -> heap_ext h1 h2 -> P x b h2) ->
  (forall x h1 g1, x ∈ xs ->
     post (f x) (h1, g1) (fun b s => heap_ext h1 (fst s) /\ P x b (fst s))) ->
  post (mapM (M:=ST (list tensor * G)) f xs) (h, g)
    (fun bs s => heap_ext h (fst s) /\ Forall2 (fun x b => P x b (fst s)) xs bs).
Proof.
  intros Hstable. revert h g.
  induction xs as [|x xs IH]; intros h g Hf.
  - apply post_ret. split; [apply heap_ext_refl|constructor].
  - rewrite mapM_ST_cons. apply post_bind.
    eapply post_mono; [apply Hf; left|].
    intros b [h1 g1] [He1 Hb]. simpl in He1, Hb.
    apply post_bind. eapply post_mono.
    { apply (IH h1 g1). intros x' h' g' Hx'. apply Hf. by right. }
    intros bs [h2 g2] [He2 Hbs]. simpl in He2, Hbs.
    apply post_ret. simpl. split; [by eapply heap_ext_trans|].
    constructor; [|done]. by eapply Hstable.
Qed.

Lemma rnn_ok_ext h h' r : rnn_ok h r -> heap_ext h h' -> rnn_ok h' r.
Proof. intros (?&?&?&?) [_ He]. repeat split; by apply He. Qed.

Lemma linear_ok_ext h h' lin i o b :
  linear_ok h lin i o b -> heap_ext h h' -> linear_ok h' lin i o b.
Proof.
  intros [Hw Hb] [_ He]. split; [by apply He|].
  destruct (lin_bias lin); [|done]. destruct Hb. split; [done|by apply He].
Qed.

Lemma param_ok_lt h l sh : param_ok h l sh -> l < length h.
Proof. intros (t & Ht & _). by eapply lookup_lt_Some. Qed.

Lemma init_post (a : Args) (h0 : list tensor) (g0 : G) :
  sizes_ok a ->
  post (RNNModel_init a) (h0, g0) (fun m s => built a (fst s) m /\ heap_ext h0 (fst s)).
Proof.
  intros (HV & HD & HHd & HHL & HE). unfold RNNModel_init.
  apply post_bind, post_new_Embedding; [lia|lia|].
  intros enc h1 g1 E1 Penc Hne Hed.
  apply post_bind.
  eapply post_mono.
  { apply (post_mapM_heap _
      (fun l r h => rnn_ok h r /\
         input_size r = Z.to_nat (if (l =? 0)%Z then a_ninp a else a_nhid a) /\
         hidden_size r = Z.to_nat (if negb (l =? a_nlayers a - 1)%Z
                                   then a_nhid a else a_nhidlast a) /\
         weight_drop r = None /\ rnn_mc_eval r = None)).
    - intros l r ha hb (?&?&?&?&?) He. split; [by eapply rnn_ok_ext|done].
    - intros l ha ga _. apply post_new_LSTM.
      + destruct (l =? 0)%Z; lia.
      + destruct (negb _); lia.
      + intros r h' g' He Hr Hi Hh Hw Hmc. split; [done|]. simpl. done. }
  intros rs0 [h2 g2] [E2 Hrs0]. cbn [fst] in E2, Hrs0.
  set (rs := if Req_dec_T (a_wdrop a) 0 then rs0
             else (fun rnn => WeightDrop rnn (a_wdrop a)) <$> rs0).
  apply post_bind, post_new_Linear; [lia|lia|].
  intros pri h3 g3 E3 Ppri _ _ Hpo.
  apply post_bind, post_new_Linear; [lia|lia|].
  intros lat h4 g4 E4 Plat _ _ _.
  apply post_bind, post_new_Linear; [lia|lia|].
  intros dec0 h5 g5 E5 Pdec0 Hfresh Hdi Hdo.
  set (dec := if a_tie_weights a
              then mkLinear (in_features dec0) (out_features dec0)
                     (emb_weight enc) (lin_bias dec0)
              else dec0).
  assert (E15 : heap_ext h1 h5) by eauto using heap_ext_trans.
  assert (Pdec : linear_ok h5 dec (Z.to_nat (a_ninp a)) (Z.to_nat (a_ntoken a)) true).
  { unfold dec. destruct (a_tie_weights a); [|done].
    destruct Pdec0 as [Pw Pb]. split; simpl; [|done]. by apply E15. }
  apply post_bind. unfold init_weights.
  apply post_bind. eapply post_uniform_; [apply E15; exact Penc|].
  intros h6 g6 E6 _.
  destruct Pdec as [Pdw Pdb].
  destruct (lin_bias dec) as [bl|] eqn:Ebl; [|discriminate Pdb].
  destruct Pdb as [_ Pdb].
  apply post_bind. eapply post_fill_; [apply E6; exact Pdb|].
  intros h7 E7 _.
  eapply post_uniform_; [apply E7, E6; exact Pdw|].
  intros h8 g8 E8 _.
  apply post_ret. cbn [fst].
  assert (E58 : heap_ext h5 h8) by eauto using heap_ext_trans.
  assert (E28 : heap_ext h2 h8) by eauto using heap_ext_trans.
  split; [|eauto 10 using heap_ext_trans].
  constructor; cbn [training use_dropout mc_eval ninp nhid nhidlast nlayers n_experts
    ntoken dropout dropouti dropouth dropoute ldropout dropoutl encoder rnns prior
    latent decoder]; try done.
  - by apply E58, E15.
  - unfold dec. by destruct (a_tie_weights a).
  - unfold rs. destruct (Req_dec_T (a_wdrop a) 0); [|rewrite length_fmap];
      rewrite <- (Forall2_length _ _ _ Hrs0); unfold range;
      by rewrite length_fmap, length_seq.
  - intros l r Hl.
    assert (exists r0, rs0 !! l = Some r0 /\
              rnn_ok h2 r0 = rnn_ok h2 r /\ input_size r = input_size r0 /\
              hidden_size r = hidden_size r0 /\ rnn_mc_eval r = rnn_mc_eval r0 /\
              weight_drop r = (if Req_dec_T (a_wdrop a) 0 then weight_drop r0
                               else Some (a_wdrop a))) as (r0 & Hr0 & Ha & Hb & Hc & Hd & He).
    { unfold rs in Hl. destruct (Req_dec_T (a_wdrop a) 0).
      - exists r. done.
      - apply list_lookup_fmap_Some in Hl as (r0 & -> & Hr0). exists r0. done. }
    destruct (Forall2_lookup_r _ _ _ _ _ Hrs0 Hr0) as (z & Hz & Hok & Hin & Hhid & Hwd & Hmc).
    unfold range in Hz. apply list_lookup_fmap_Some in Hz as (i & -> & Hi).
    apply lookup_seq in Hi as [-> _]. simpl in *.
    unfold layer_input, layer_width. cbn [ninp nhid nhidlast nlayers].
    rewrite Hb, Hc, Hd, He, Hin, Hhid, Hmc, Hwd.
    split; [|done]. eapply rnn_ok_ext; [|exact E28]. by rewrite <- Ha.
  - eapply linear_ok_ext; [exact Ppri|]. eauto using heap_ext_trans.
  - eapply linear_ok_ext; [exact Plat|]. eauto using heap_ext_trans.
  - split; [by apply E8, E7, E6|]. rewrite Ebl. split; [done|by apply E8, E7, E6].
  - unfold dec. destruct (a_tie_weights a); [done|].
    apply param_ok_lt in Penc. destruct E15 as [? _], E2 as [? _], E3 as [? _], E4 as [? _].
    lia.
Qed.

End Constructor.

(** ** The modelled imports keep the shapes *)

Lemma length_mask_of keep scale u n : length (mask_of keep scale u n) = n.
Proof. unfold mask_of. by rewrite length_fmap, length_seq. Qed.

Lemma std_lockdrop_ok tr x p mc g T B F :
  shape x = [T; B; F] -> wf x -> prob_ok p ->
  exists y g', std_lockdrop tr x p mc g = inr (y, g') /\ shape y = [T; B; F] /\ wf y.
Proof.
  intros Hx Hw _. unfold std_lockdrop.
  destruct (Req_dec_T p 0); [by eexists _, _|].
  destruct tr; simpl; [|by eexists _, _].
  rewrite Hx. eexists _, _. split; [reflexivity|]. split; [done|].
  unfold wf. simpl. unfold wf in Hw. rewrite Hx in Hw. simpl in Hw.
  rewrite (length_concat_rows (B * F)).
  - rewrite length_fmap, length_chunks. lia.
  - apply Forall_fmap.
    eapply Forall_impl; [apply (chunks_row_length T (B * F)); lia|].
    intros step Hs. simpl in *. rewrite length_zip_with, length_mask_of. lia.
Qed.

Lemma mapM_result_Forall {A B} (f : A -> result B) (P : B -> Prop) (l : list A) :
  Forall (fun x => exists y, f x = inr y /\ P y) l ->
  exists ys, mapM (M:=result) f l = inr ys /\ length ys = length l /\ Forall P ys.
Proof.
  induction 1 as [|x l (y & Hy & HP) _ (ys & IH & Hl & HF)].
  - by exists [].
  - exists (y :: ys). rewrite mapM_result_cons, Hy, IH. simpl.
    split; [done|]. split; [by rewrite Hl|by constructor].
Qed.

Lemma std_embedded_dropout_ok h enc input p usedp mc g V D T B :
  param_ok h (emb_weight enc) [V; D] ->
  lshape input = [T; B] -> length (ldata input) = T * B ->
  Forall (fun tok => (0 <= tok < Z.of_nat V)%Z) (ldata input) ->
  prob_ok p ->
  exists y g', std_embedded_dropout h enc input p usedp mc g = inr (y, g') /\
               shape y = [T; B; D] /\ wf y.
Proof.
  intros HW Hs Hl Htok _. unfold std_embedded_dropout.
  apply deref_ok in HW as (W & -> & HWs & HWw).
  unfold mbind at 1. unfold result_bind at 1. rewrite HWs.
  set (table0 := chunks V D (data W)).
  assert (Ht0 : length table0 = V /\ Forall (fun r => length r = D) table0).
  { split; [apply length_chunks|]. apply chunks_row_length.
    unfold wf in HWw. rewrite HWw, HWs. simpl. lia. }
  assert (Hlook : forall (table : list (list R)) (g' : nat), length table = V ->
            Forall (fun r : list R => length r = D) table ->
            exists y,
              (rows ← mapM (M:=result)
                 (fun tok => if (tok <? 0)%Z then raise IndexError
                             else match table !! Z.to_nat tok with
                                  | Some row => mret row
                                  | None => raise IndexError
                                  end) (ldata input);
               mret (Tensor (lshape input ++ [D]) (concat rows), g'))
              = (inr (y, g') : result (tensor * nat)) /\ shape y = [T; B; D] /\ wf y).
  { intros table g' Hlen Hrows.
    destruct (mapM_result_Forall
                (fun tok => if (tok <? 0)%Z then raise IndexError
                            else match table !! Z.to_nat tok with
                                 | Some row => mret row
                                 | None => raise IndexError
                                 end)
                (fun r => length r = D) (ldata input)) as (rows & -> & Hrl & Hrr).
    { eapply Forall_impl; [exact Htok|]. intros tok Ht. simpl in Ht.
      destruct (Z.ltb_spec tok 0); [lia|].
      destruct (lookup_lt_is_Some_2 table (Z.to_nat tok)) as [row Hrow]; [lia|].
      rewrite Hrow. exists row. split; [done|].
      by apply (proj1 (Forall_lookup _ _) Hrows _ _ Hrow). }
    simpl. eexists. split; [reflexivity|]. simpl. rewrite Hs. split; [done|].
    unfold wf. simpl. rewrite (length_concat_rows D _ Hrr), Hrl, Hl. lia. }
  destruct usedp.
  - destruct (std_rand g) as [u g'] eqn:Eg.
    destruct (Hlook (zip_with (fun k row => Rmult k <$> row)
                       (mask_of (1 - p) (keep_scale p mc) u V) table0) g')
      as (y & Hy & Hsh & Hwf).
    + rewrite length_zip_with, length_mask_of. lia.
    + apply Forall_lookup. intros i r Hi.
      apply lookup_zip_with_Some in Hi as (k & row & -> & _ & Hrow).
      rewrite length_fmap. by apply (proj1 (Forall_lookup _ _) (proj2 Ht0) _ _ Hrow).
    + exists y, g'. done.
  - destruct (Hlook table0 g) as (y & Hy & Hsh & Hwf); [apply Ht0..|].
    exists y, g. done.
Qed.

(** The recurrent cell *)

Section Lstm.
Variables (Wih Whh : list (list R)) (bih bhh : list R) (hid : nat).
Hypothesis HWih : length Wih = 4 * hid.
Hypothesis HWhh : length Whh = 4 * hid.
Hypothesis Hbih : length bih = 4 * hid.
Hypothesis Hbhh : length bhh = 4 * hid.

Lemma lstm_cell_ok x hc :
  state_ok hid hc -> state_ok hid (lstm_cell Wih Whh bih bhh hid x hc).
Proof.
  intros [Hh Hc]. unfold lstm_cell, state_ok. cbn [fst snd].
  set (gates := zip_with Rplus (affine Wih bih x) (affine Whh bhh (fst hc))).
  assert (Hg : length gates = 4 * hid).
  { unfold gates. rewrite length_zip_with, !length_affine. lia. }
  assert (Hc' : length (zip_with Rplus
                  (zip_with Rmult (sigmoid <$> take hid (drop hid gates)) (snd hc))
                  (zip_with Rmult (sigmoid <$> take hid gates)
                     (tanh <$> take hid (drop (2 * hid) gates)))) = hid).
  { rewrite !length_zip_with, !length_fmap, !length_take, !length_drop. lia. }
  split; [|exact Hc'].
  rewrite length_zip_with, !length_fmap, Hc', length_take, length_drop. lia.
Qed.

Lemma lstm_seq_ok B xs st :
  Forall (fun xt => length xt = B) xs ->
  length st = B -> Forall (state_ok hid) st ->
  length (fst (lstm_seq (lstm_cell Wih Whh bih bhh hid) xs st)) = length xs /\
  Forall (fun y => length y = B /\ Forall (fun hv => length hv = hid) y)
    (fst (lstm_seq (lstm_cell Wih Whh bih bhh hid) xs st)) /\
  length (snd (lstm_seq (lstm_cell Wih Whh bih bhh hid) xs st)) = B /\
  Forall (state_ok hid) (snd (lstm_seq (lstm_cell Wih Whh bih bhh hid) xs st)).
Proof.
  intros Hxs. revert st.
  induction Hxs as [|xt xs Hxt _ IH]; intros st Hst Hok; [done|].
  cbn [lstm_seq].
  set (st' := zip_with (lstm_cell Wih Whh bih bhh hid) xt st).
  assert (Hst' : length st' = B).
  { unfold st'. rewrite length_zip_with. lia. }
  assert (Hok' : Forall (state_ok hid) st').
  { apply Forall_lookup. intros i hc Hi.
    apply lookup_zip_with_Some in Hi as (x & hc0 & -> & _ & Hhc0).
    apply lstm_cell_ok. by apply (proj1 (Forall_lookup _ _) Hok _ _ Hhc0). }
  destruct (IH st' Hst' Hok') as (I1 & I2 & I3 & I4).
  destruct (lstm_seq (lstm_cell Wih Whh bih bhh hid) xs st') as [ys stT].
  cbn [fst snd] in *. split; [simpl; by rewrite I1|]. split; [|done].
  constructor; [|done]. split; [by rewrite length_fmap|].
  apply Forall_fmap. eapply Forall_impl; [exact Hok'|]. by intros ? [? _].
Qed.

End Lstm.

Lemma lstm_run_ok (Wih bih bhh x h0 c0 : tensor) (whh : list R) (hid Di T B : nat) (g' : nat) :
  length (data bih) = 4 * hid -> length (data bhh) = 4 * hid ->
  length (data x) = T * (B * Di) ->
  length (data h0) = B * hid -> length (data c0) = B * hid ->
  exists y nh,
    (let cell :=
       lstm_cell (chunks (4 * hid) Di (data Wih)) (chunks (4 * hid) hid whh)
         (data bih) (data bhh) hid in
     let xs := chunks B Di <$> chunks T (B * Di) (data x) in
     let st := zip (chunks B hid (data h0)) (chunks B hid (data c0)) in
     let '(ys, stT) := lstm_seq cell xs st in
     mret (Tensor [T; B; hid] (concat (@concat _ <$> ys)),
           (Tensor [1; B; hid] (concat (fst <$> stT)),
            Tensor [1; B; hid] (concat (snd <$> stT))), g'))
    = (inr (y, nh, g') : result (tensor * hpair * nat)) /\
    shape y = [T; B; hid] /\ wf y /\
    shape (fst nh) = [1; B; hid] /\ wf (fst nh) /\
    shape (snd nh) = [1; B; hid] /\ wf (snd nh).
Proof.
  intros Hb3 Hb4 Hwx Hwh Hwc. cbv zeta.
  set (cell := lstm_cell (chunks (4 * hid) Di (data Wih)) (chunks (4 * hid) hid whh)
                 (data bih) (data bhh) hid).
  set (xs := chunks B Di <$> chunks T (B * Di) (data x)).
  set (st := zip (chunks B hid (data h0)) (chunks B hid (data c0))).
  destruct (lstm_seq_ok (chunks (4 * hid) Di (data Wih)) (chunks (4 * hid) hid whh)
              (data bih) (data bhh) hid (length_chunks _ _ _) (length_chunks _ _ _)
              Hb3 Hb4 B xs st) as (L1 & L2 & L3 & L4).
  { apply Forall_fmap, Forall_true. intros blk. apply length_chunks. }
  { unfold st. rewrite length_zip, !length_chunks. lia. }
  { unfold st. apply Forall_lookup. intros i [hv cv] Hi.
    apply lookup_zip_with_Some in Hi as (a & b & Hab & Ha & Hb). inversion Hab; subst a b.
    split; cbn [fst snd].
    - eapply (proj1 (Forall_lookup _ _) (chunks_row_length B hid _ _) _ _ Ha).
    - eapply (proj1 (Forall_lookup _ _) (chunks_row_length B hid _ _) _ _ Hb). }
  fold cell in L1, L2, L3, L4.
  destruct (lstm_seq cell xs st) as [ys stT]. cbn [fst snd] in *.
  eexists _, _. split; [reflexivity|]. cbn [fst snd shape data].
  unfold wf. cbn [shape data].
  repeat split.
  - rewrite (length_concat_rows (B * hid)).
    + rewrite length_fmap, L1. unfold xs. rewrite length_fmap, length_chunks.
      simpl. lia.
    + apply Forall_fmap. eapply Forall_impl; [exact L2|].
      intros y [Hy1 Hy2]. simpl. by rewrite (length_concat_rows hid), Hy1.
  - rewrite (length_concat_rows hid).
    + rewrite length_fmap, L3. simpl. lia.
    + apply Forall_fmap. eapply Forall_impl; [exact L4|]. by intros ? [? _].
  - rewrite (length_concat_rows hid).
    + rewrite length_fmap, L3. simpl. lia.
    + apply Forall_fmap. eapply Forall_impl; [exact L4|]. by intros ? [_ ?].
  Unshelve. all: lia.
Qed.

Lemma std_rnn_forward_ok tr h r x hc g T B :
  rnn_ok h r -> 0 < T ->
  shape x = [T; B; input_size r] -> wf x ->
  shape (fst hc) = [1; B; hidden_size r] -> wf (fst hc) ->
  shape (snd hc) = [1; B; hidden_size r] -> wf (snd hc) ->
  exists y nh g', std_rnn_forward tr h r x hc g = inr (y, nh, g') /\
                  shape y = [T; B; hidden_size r] /\ wf y /\
                  shape (fst nh) = [1; B; hidden_size r] /\ wf (fst nh) /\
                  shape (snd nh) = [1; B; hidden_size r] /\ wf (snd nh).
Proof.
  intros (P1 & P2 & P3 & P4) HT Hx Hwx Hh Hwh Hc Hwc. unfold std_rnn_forward.
  apply deref_ok in P1 as (Wih & -> & S1 & W1).
  apply deref_ok in P2 as (Whh & -> & S2 & W2).
  apply deref_ok in P3 as (bih & -> & S3 & W3).
  apply deref_ok in P4 as (bhh & -> & S4 & W4).
  unfold mbind, result_bind. cbv beta iota. rewrite Hx, Hh, Hc. cbv beta iota.
  rewrite decide_True by done.
  unfold wf in *. rewrite ?S3, ?S4, ?Hx, ?Hh, ?Hc in *. simpl in W3, W4, Hwx, Hwh, Hwc.
  assert (forall whh g',
    exists y nh,
      (let cell :=
         lstm_cell (chunks (4 * hidden_size r) (input_size r) (data Wih))
           (chunks (4 * hidden_size r) (hidden_size r) whh)
           (data bih) (data bhh) (hidden_size r) in
       let xs := chunks B (input_size r) <$> chunks T (B * input_size r) (data x) in
       let st := zip (chunks B (hidden_size r) (data (fst hc)))
                   (chunks B (hidden_size r) (data (snd hc))) in
       let '(ys, stT) := lstm_seq cell xs st in
       mret (Tensor [T; B; hidden_size r] (concat (@concat _ <$> ys)),
             (Tensor [1; B; hidden_size r] (concat (fst <$> stT)),
              Tensor [1; B; hidden_size r] (concat (snd <$> stT))), g'))
      = (inr (y, nh, g') : result (tensor * hpair * nat)) /\
      shape y = [T; B; hidden_size r] /\ length (data y) = numel (shape y) /\
      shape (fst nh) = [1; B; hidden_size r] /\
      length (data (fst nh)) = numel (shape (fst nh)) /\
      shape (snd nh) = [1; B; hidden_size r] /\
      length (data (snd nh)) = numel (shape (snd nh))) as Hrun.
  { intros whh g'. apply lstm_run_ok; lia. }
  destruct (weight_drop r) as [pw|].
  - destruct (std_rand g) as [u g1].
    destruct (Hrun (zip_with Rmult (data Whh)
                      (mask_of (1 - pw)
                         (keep_scale pw match rnn_mc_eval r with
                                        | Some b => b
                                        | None => false
                                        end) u (length (data Whh)))) g1)
      as (y & nh & Heq & Hrest).
    exists y, nh, g1. split; [exact Heq|exact Hrest].
  - destruct (Hrun (data Whh) g) as (y & nh & Heq & Hrest).
    exists y, nh, g. split; [exact Heq|exact Hrest].
Qed.

#[global] Instance std_imports_ok : ImportsOk (H := std_imports).
Proof.
  constructor.
  - apply std_embedded_dropout_ok.
  - apply std_lockdrop_ok.
  - apply std_rnn_forward_ok.
Qed.

(** ** init_hidden, and the example of model.py *)

Lemma init_hidden_eq m B :
  (0 <= nhid m)%Z -> (0 <= nhidlast m)%Z ->
  init_hidden m (Z.of_nat B)
  = inr ((fun l => (zeros [1; B; layer_width m l], zeros [1; B; layer_width m l]))
           <$> seq 0 (Z.to_nat (nlayers m))).
Proof.
  intros Hh Hl. unfold init_hidden, range.
  rewrite (mapM_result_fmap _
    (fun z => let w := Z.to_nat (if negb (z =? nlayers m - 1)%Z
                                 then nhid m else nhidlast m) in
              (zeros [1; B; w], zeros [1; B; w]))).
  - by rewrite <- list_fmap_compose.
  - apply Forall_true. intros z. cbv zeta.
    rewrite mapM_dim_of_nonneg.
    + simpl. by rewrite Nat2Z.id.
    + repeat constructor; try lia. destruct (negb _); lia.
Qed.

Lemma init_hidden_ok m B :
  (0 <= nhid m)%Z -> (0 <= nhidlast m)%Z ->
  nlayers m = Z.of_nat (length (rnns m)) ->
  exists hs, init_hidden m (Z.of_nat B) = inr hs /\ hidden_ok m hs B.
Proof.
  intros Hh Hl Hn. eexists. split; [by apply init_hidden_eq|].
  split.
  - rewrite length_fmap, length_seq. lia.
  - intros l hc Hhc. apply list_lookup_fmap_Some in Hhc as (i & -> & Hi).
    apply lookup_seq in Hi as [-> _]. simpl.
    repeat split; apply wf_zeros.
Qed.

Lemma built_model_ok a h m : built a h m -> args_ok a -> model_ok h m.
Proof.
  intros [_ (E1 & E2 & E3 & E4 & E5 & E6) (P1 & P2 & P3 & P4 & P5 & P6)
            Henc _ Hn Hr Hpr Hlat Hdec _]
         ((HV & HD & HHd & HHL & HE) & (HV' & HE' & HN') & Q1 & Q2 & Q3 & Q4 & Q5).
  constructor; try done.
  - rewrite E1, E2, E3, E5, E6. lia.
  - rewrite E4, Hn. lia.
  - intros l r Hl. destruct (Hr l r Hl) as (? & ? & ? & _). done.
  - by rewrite P1, P2, P3, P4, P6.
Qed.

Lemma main_input_ok m : ntoken m = 10%Z -> input_ok m main_input 13 9.
Proof.
  intros Hm. unfold input_ok, main_input. cbn [lshape ldata].
  split; [lia|]. split; [lia|]. split; [done|].
  split; [by rewrite length_fmap, length_seq|].
  apply Forall_fmap, Forall_true. intros i. simpl. rewrite Hm.
  pose proof (Nat.mod_upper_bound i 10). lia.
Qed.

Lemma prob_ok_half : prob_ok (1 / 2).
Proof. unfold prob_ok. lra. Qed.

Lemma prob_ok_tenth : prob_ok (1 / 10).
Proof. unfold prob_ok. lra. Qed.

Lemma main_args_ok : args_ok main_args.
Proof.
  unfold args_ok, sizes_ok, main_args. simpl.
  repeat split; try lia; try apply prob_ok_half; apply prob_ok_tenth.
Qed.

Lemma tied_args_ok : args_ok tied_args.
Proof.
  unfold args_ok, sizes_ok, tied_args. simpl.
  repeat split; try lia; try apply prob_ok_half; apply prob_ok_tenth.
Qed.

(** The example of model.py: the constructor, init_hidden(9), and what
    forward needs of them. *)
Lemma main_setup (a : Args) :
  args_ok a -> a_ntoken a = 10%Z ->
  exists m h g hs,
    RNNModel_init (H := std_imports) a ([], 0) = inr (m, (h, g)) /\
    init_hidden m 9 = inr hs /\
    built a h m /\ model_ok h m /\ input_ok m main_input 13 9 /\ hidden_ok m hs 9.
Proof.
  intros Ha Hnt.
  destruct (init_post (H := std_imports) a [] 0 (proj1 Ha)) as (m & [h g] & Hinit & Hb & _).
  simpl in Hb. pose proof (built_model_ok a h m Hb Ha) as Hok.
  destruct (init_hidden_ok m 9) as (hs & Hhs & Hhok).
  { destruct Hok as [(?&?&?&?&?) _ _ _ _ _ _ _]. lia. }
  { destruct Hok as [(?&?&?&?&?) _ _ _ _ _ _ _]. lia. }
  { by destruct Hok as [_ [? _] _ _ _ _ _ _]. }
  exists m, h, g, hs.
  split; [exact Hinit|]. split; [exact Hhs|]. split; [exact Hb|].
  split; [exact Hok|]. split; [|exact Hhok].
  apply main_input_ok. destruct Hb as [_ (_&_&_&_&_&->) _ _ _ _ _ _ _ _ _]. done.
Qed.

(** ** A run of forward *)

Section Run.
Context `{ImportsOk}.
Variables (h : list tensor) (m : RNNModel) (input : ltensor) (hidden : list hpair).
Variables (T B : nat) (g : G) (cs : list call).
Hypothesis Hok : model_ok h m.
Hypothesis Hin : input_ok m input T B.
Hypothesis Hhid : hidden_ok m hidden B.

(** A run of forward, read through its calls. *)
Lemma forward_run return_h return_prob :
  exists ret s' tr tl emb0 emb out G lat0 lat1 lv logit pl,
    forward h input hidden return_h return_prob (mkFstate m g cs) = inr (ret, s') /\
    calls s' = cs ++ tr /\
    self s' = set_rnns m ((fun r => set_rnn_mc_eval r (mc_eval m)) <$> rnns m) /\
    layer_trace m hidden 0 emb (rnns m) tl out /\
    embedded_calls tr =
      [mkEmbeddedCall input (dropoute m) (training m && use_dropout m) (mc_eval m) emb0] /\
    rnn_calls tr = rnn_calls tl /\
    lockdrop_calls tr =
      mkLockdropCall emb0 (p_or_0 (use_dropout m) (dropouti m)) (mc_eval m) emb
      :: lockdrop_calls tl ++
      [mkLockdropCall out (p_or_0 (use_dropout m) (dropout m)) (mc_eval m) G;
       mkLockdropCall lat0 (p_or_0 (use_dropout m) (dropoutl m)) (mc_eval m) lat1] /\
    latent_calls tr = [(G, lat0)] /\
    decoder_calls tr = [(lv, logit)] /\
    prior_calls tr = [(G, pl)] /\
    Forall (fun c => forall v, call_mc_eval c = Some v -> v = Some (mc_eval m)) tr /\
    ret = (let mix := mixture_data (T * B) (Z.to_nat (n_experts m))
                        (Z.to_nat (ntoken m)) (data logit) (data pl) in
           let mo := Tensor [T; B; Z.to_nat (ntoken m)]
                       (if return_prob then mix
                        else (fun p => ln (p + 1e-8))%R <$> mix) in
           if return_h
           then Ret4 mo (rc_new_hidden <$> rnn_calls tl) (rc_output <$> rnn_calls tl)
                  ((lc_output <$> lockdrop_calls tl) ++ [G])
           else Ret2 mo (rc_new_hidden <$> rnn_calls tl)) /\
    length (data logit) = T * B * Z.to_nat (n_experts m) * Z.to_nat (ntoken m) /\
    length (data pl) = T * B * Z.to_nat (n_experts m).
Proof.
  destruct (forward_spec h m input hidden T B g cs return_h return_prob Hok Hin Hhid)
    as (ret & s' & Heq & emb0 & emb & tl & out & G & lat0 & lat1 & lv & logit & pl &
        Hs & Hc & Htl & Hret & Hl1 & Hl2).
  destruct (layer_trace_other _ _ _ _ _ _ _ Htl) as (O1 & O2 & O3 & O4).
  eexists ret, s', _, tl, emb0, emb, out, G, lat0, lat1, lv, logit, pl.
  split; [exact Heq|]. split; [exact Hc|]. split; [exact Hs|]. split; [exact Htl|].
  split. { cbn. unfold embedded_calls in *. rewrite omap_app, O1. done. }
  split. { cbn. unfold rnn_calls. rewrite omap_app. cbn. by rewrite app_nil_r. }
  split. { cbn. unfold lockdrop_calls. rewrite omap_app. done. }
  split. { cbn. unfold latent_calls in *. rewrite omap_app, O2. done. }
  split. { cbn. unfold decoder_calls in *. rewrite omap_app, O3. done. }
  split. { cbn. unfold prior_calls in *. rewrite omap_app, O4. done. }
  split.
  { constructor; [simpl; intros v Hv; by inversion Hv|].
    constructor; [simpl; intros v Hv; by inversion Hv|].
    apply Forall_app. split; [by eapply layer_trace_mc_eval|].
    repeat constructor; simpl; intros v Hv; by inversion Hv. }
  done.
Qed.

End Run.

(** ** The output distribution and the dropout between layers *)

Section Mixture.
Context `{ImportsOk}.
Variables (h : list tensor) (m : RNNModel) (input : ltensor) (hidden : list hpair).
Variables (T B : nat) (g : G) (cs : list call).
Hypothesis Hok : model_ok h m.
Hypothesis Hin : input_ok m input T B.
Hypothesis Hhid : hidden_ok m hidden B.

Let N := length (rnns m).
Let E := Z.to_nat (n_experts m).
Let V := Z.to_nat (ntoken m).

Lemma model_dims_pos : 0 < N /\ 0 < E /\ 0 < V /\ Z.of_nat (0 + N) = nlayers m.
Proof.
  destruct Hok as [(?&?&?&?&?) [Hn ?] _ _ _ _ _ _]. unfold N, E, V.
  repeat split; try lia.
Qed.

(** C1. In raw-probability mode forward returns, for every (time step,
    batch element), a row over the vocabulary of positive entries that
    sum to 1: the rows
    of the prior-weighted mixture of the per-expert softmax rows of the
    decoder's logits, where each per-expert row and each row of the prior
    over the experts is a distribution (positive entries that sum to 1). *)
Theorem forward_prob_rows_sum_to_one (return_h : bool) :
  exists ret s' tr lv logit G pl,
    forward h input hidden return_h true (mkFstate m g cs) = inr (ret, s') /\
    shape (model_output_of ret) = [T; B; V] /\
    wf (model_output_of ret) /\
    Forall (fun row => sum_R row = 1%R /\ Forall (fun x => (0 < x)%R) row)
      (chunks (T * B) V (data (model_output_of ret))) /\
    calls s' = cs ++ tr /\
    decoder_calls tr = [(lv, logit)] /\ prior_calls tr = [(G, pl)] /\
    data (model_output_of ret) = mixture_data (T * B) E V (data logit) (data pl) /\
    Forall (fun p => sum_R p = 1%R /\ Forall (fun x => (0 < x)%R) p)
      (softmax_row <$> chunks (T * B * E) V (data logit)) /\
    Forall (fun w => sum_R w = 1%R /\ Forall (fun x => (0 < x)%R) w)
      (softmax_row <$> chunks (T * B) E (data pl)).
Proof.
  destruct model_dims_pos as (HN & HE & HV & _).
  destruct (forward_run h m input hidden T B g cs Hok Hin Hhid return_h true)
    as (ret & s' & tr & tl & emb0 & emb & out & G & lat0 & lat1 & lv & logit & pl &
        Heq & Hc & _ & _ & _ & _ & _ & _ & Hdec & Hpri & _ & Hret & Hl1 & Hl2).
  fold E V in Hret, Hl1, Hl2.
  destruct (mixture_data_rows (T * B) E V (data logit) (data pl) HE HV Hl1 Hl2)
    as [Hlen Hrows].
  assert (Hmo : model_output_of ret
                = Tensor [T; B; V] (mixture_data (T * B) E V (data logit) (data pl))).
  { rewrite Hret. by destruct return_h. }
  exists ret, s', tr, lv, logit, G, pl. rewrite Hmo. cbn [shape data].
  split; [exact Heq|]. split; [done|].
  split. { unfold wf. cbn [shape data]. rewrite Hlen. simpl. lia. }
  split; [exact Hrows|]. split; [exact Hc|]. split; [exact Hdec|].
  split; [exact Hpri|]. split; [done|].
  split; (eapply Forall_impl; [by apply softmax_rows_dist|]); simpl; tauto.
Qed.

(** C4. The flag selects what forward returns: the mixture probabilities
    themselves when raw probabilities are requested, otherwise
    log(prob + 1e-8) entry by entry, the argument of the logarithm being
    positive; either is shaped (time, batch, vocabulary).  The mixture is
    that of the logits which the decoder and the prior projection returned
    in this call. *)
Theorem forward_output_selected_by_flag (return_h return_prob : bool) :
  exists ret s' tr lv logit G pl,
    forward h input hidden return_h return_prob (mkFstate m g cs) = inr (ret, s') /\
    calls s' = cs ++ tr /\
    decoder_calls tr = [(lv, logit)] /\ prior_calls tr = [(G, pl)] /\
    model_output_of ret
    = Tensor [T; B; V]
        (if return_prob
         then mixture_data (T * B) E V (data logit) (data pl)
         else (fun p => ln (p + 1e-8))%R
                <$> mixture_data (T * B) E V (data logit) (data pl)) /\
    Forall (fun p => (0 < p + 1e-8)%R)
      (mixture_data (T * B) E V (data logit) (data pl)).
Proof.
  destruct model_dims_pos as (HN & HE & HV & _).
  destruct (forward_run h m input hidden T B g cs Hok Hin Hhid return_h return_prob)
    as (ret & s' & tr & tl & emb0 & emb & out & G & lat0 & lat1 & lv & logit & pl &
        Heq & Hc & _ & _ & _ & _ & _ & _ & Hdec & Hpri & _ & Hret & Hl1 & Hl2).
  exists ret, s', tr, lv, logit, G, pl.
  split; [exact Heq|]. split; [exact Hc|]. split; [exact Hdec|]. split; [exact Hpri|].
  split; [rewrite Hret; by destruct return_h|].
  eapply Forall_impl; [by apply (mixture_data_pos (T * B) E V)|].
  intros p Hp. simpl in Hp. lra.
Qed.

(** Positions in the list of the dropout calls of a run. *)
Lemma lockdrop_positions (d0 dout dlat : lockdrop_call) (L : list lockdrop_call) :
  length L = N - 1 ->
  let all := d0 :: L ++ [dout; dlat] in
  length all = N + 2 /\ all !! 0 = Some d0 /\
  (forall j, S j < N -> all !! S j = L !! j) /\
  all !! N = Some dout /\ all !! (N + 1) = Some dlat.
Proof.
  destruct model_dims_pos as (HN & _). intros HL all. unfold all.
  split; [simpl; rewrite length_app; simpl; lia|].
  split; [done|]. split.
  { intros j Hj. simpl. rewrite lookup_app_l by lia. done. }
  destruct N as [|n]; [lia|]. simpl in HL. rewrite Nat.sub_0_r in HL. split.
  - simpl. rewrite lookup_app_r by lia. by rewrite HL, Nat.sub_diag.
  - replace (S n + 1) with (S (S n)) by lia. simpl.
    rewrite lookup_app_r by lia. rewrite HL. by replace (S n - n) with 1 by lia.
Qed.

(** C5. Along the stack of N layers, the output of layer l is passed
    through the sequence-consistent dropout with probability dropouth and
    the result enters layer l+1, for l = 0..N-2.  These are the only
    dropout calls between the one on the embeddings and the one with
    probability dropout on the output of the last layer, whose result
    enters the output head: the last layer gets no inter-layer dropout. *)
Theorem inter_layer_dropout_not_after_last (return_h return_prob : bool) :
  use_dropout m = true ->
  exists ret s' tr,
    forward h input hidden return_h return_prob (mkFstate m g cs) = inr (ret, s') /\
    calls s' = cs ++ tr /\
    length (rnn_calls tr) = N /\ length (lockdrop_calls tr) = N + 2 /\
    (exists e0 d0, embedded_calls tr = [e0] /\ lockdrop_calls tr !! 0 = Some d0 /\
                   lc_input d0 = ec_output e0) /\
    (forall l, S l < N -> exists e e' d,
       rnn_calls tr !! l = Some e /\ rc_layer e = l /\
       rnn_calls tr !! S l = Some e' /\ rc_layer e' = S l /\
       lockdrop_calls tr !! S l = Some d /\
       lc_input d = rc_output e /\ lc_dropout d = dropouth m /\
       rc_input e' = lc_output d) /\
    (exists e d dl y y',
       rnn_calls tr !! (N - 1) = Some e /\ rc_layer e = N - 1 /\
       lockdrop_calls tr !! N = Some d /\
       lc_input d = rc_output e /\ lc_dropout d = dropout m /\
       latent_calls tr = [(lc_output d, y)] /\ prior_calls tr = [(lc_output d, y')] /\
       lockdrop_calls tr !! (N + 1) = Some dl /\ lc_input dl = y).
Proof.
  intros Hud. destruct model_dims_pos as (HN & _ & _ & HNl).
  destruct (forward_run h m input hidden T B g cs Hok Hin Hhid return_h return_prob)
    as (ret & s' & tr & tl & emb0 & emb & out & G & lat0 & lat1 & lv & logit & pl &
        Heq & Hc & _ & Htl & Hemb & Hrnn & Hlock & Hlat & _ & Hpri & _).
  pose proof (layer_trace_rnn_length _ _ _ _ _ _ _ Htl) as Hrl. fold N in Hrl.
  pose proof (layer_trace_lockdrop_length _ _ _ _ _ _ _ Htl HNl) as Hll. fold N in Hll.
  rewrite Hud in Hlock. cbn [p_or_0] in Hlock.
  destruct (lockdrop_positions
              (mkLockdropCall emb0 (dropouti m) (mc_eval m) emb)
              (mkLockdropCall out (dropout m) (mc_eval m) G)
              (mkLockdropCall lat0 (dropoutl m) (mc_eval m) lat1)
              (lockdrop_calls tl) Hll) as (P1 & P2 & P3 & P4 & P5).
  rewrite <- Hlock in P1, P2, P3, P4, P5.
  exists ret, s', tr. rewrite Hrnn.
  split; [exact Heq|]. split; [exact Hc|]. split; [exact Hrl|]. split; [exact P1|].
  split. { eexists _, _. split; [exact Hemb|]. split; [exact P2|]. done. }
  split.
  - intros l Hl.
    destruct (lookup_lt_is_Some_2 (rnn_calls tl) l) as [e He]; [lia|].
    destruct (lookup_lt_is_Some_2 (rnn_calls tl) (S l)) as [e' He']; [lia|].
    destruct (layer_trace_between _ _ _ _ _ _ _ _ _ _ Htl HNl He He')
      as (d & Hd & D1 & D2 & D3 & D4).
    destruct (layer_trace_rnn_lookup _ _ _ _ _ _ _ _ _ Htl He) as (R1 & _).
    destruct (layer_trace_rnn_lookup _ _ _ _ _ _ _ _ _ Htl He') as (R1' & _).
    exists e, e', d. rewrite P3 by done.
    rewrite Hud in D2. cbn [p_or_0] in D2. done.
  - destruct (rnns m) as [|r todo] eqn:Hr; [simpl in N; unfold N in HN; simpl in HN; lia|].
    destruct (layer_trace_out _ _ _ _ _ _ _ _ Htl HNl) as (e & He & Hout).
    destruct (layer_trace_rnn_lookup _ _ _ _ _ _ _ _ _ Htl He) as (R1 & _).
    assert (HN1 : length todo = N - 1) by (unfold N; simpl; lia).
    rewrite HN1 in He, R1.
    eexists e, _, _, lat0, pl.
    split; [exact He|]. split; [exact R1|]. split; [exact P4|]. cbn.
    split; [done|]. split; [done|]. split; [exact Hlat|]. split; [exact Hpri|].
    split; [exact P5|]. done.
Qed.

End Mixture.

(** ** The mc_eval flag, the returned lists, the embedding dropout *)

Section Calls.
Context `{ImportsOk}.
Variables (h : list tensor) (m : RNNModel) (input : ltensor) (hidden : list hpair).
Variables (T B : nat) (g : G) (cs : list call).
Hypothesis Hok : model_ok h m.
Hypothesis Hin : input_ok m input T B.
Hypothesis Hhid : hidden_ok m hidden B.

Let N := length (rnns m).

(** C8. In a forward call every dropout-capable component gets the
    container's current mc_eval: the one call of embedded_dropout and each
    of the N + 2 calls of the sequence-consistent dropout receive it as an
    argument, and each of the N recurrent modules, invoked once in layer
    order, has it as its mc_eval attribute when it is invoked, whatever the
    attribute was before.  The attribute stays installed after the call. *)
Theorem mc_eval_threaded_into_components (return_h return_prob : bool) :
  exists ret s' tr,
    forward h input hidden return_h return_prob (mkFstate m g cs) = inr (ret, s') /\
    calls s' = cs ++ tr /\
    Forall (fun c => forall v, call_mc_eval c = Some v -> v = Some (mc_eval m)) tr /\
    length (embedded_calls tr) = 1 /\
    length (lockdrop_calls tr) = N + 2 /\
    length (rnn_calls tr) = N /\
    Forall (fun e => ec_mc_eval e = mc_eval m) (embedded_calls tr) /\
    Forall (fun d => lc_mc_eval d = mc_eval m) (lockdrop_calls tr) /\
    (forall l e, rnn_calls tr !! l = Some e ->
       rc_layer e = l /\ rnn_mc_eval (rc_module e) = Some (mc_eval m)) /\
    mc_eval (self s') = mc_eval m /\
    length (rnns (self s')) = N /\
    (forall l r, rnns (self s') !! l = Some r -> rnn_mc_eval r = Some (mc_eval m)).
Proof.
  destruct (model_dims_pos h m Hok) as (HN & _ & _ & HNl).
  destruct (forward_run h m input hidden T B g cs Hok Hin Hhid return_h return_prob)
    as (ret & s' & tr & tl & emb0 & emb & out & G & lat0 & lat1 & lv & logit & pl &
        Heq & Hc & Hs & Htl & Hemb & Hrnn & Hlock & _ & _ & _ & Hmc & _).
  pose proof (layer_trace_rnn_length _ _ _ _ _ _ _ Htl) as Hrl. fold N in Hrl.
  pose proof (layer_trace_lockdrop_length _ _ _ _ _ _ _ Htl HNl) as Hll.
  exists ret, s', tr. rewrite Hrnn, Hemb, Hs.
  split; [exact Heq|]. split; [exact Hc|]. split; [exact Hmc|]. split; [done|].
  split. { rewrite Hlock. simpl. rewrite length_app, Hll. simpl. fold N. lia. }
  split; [exact Hrl|]. split; [by repeat constructor|].
  split.
  { apply Forall_forall. intros d Hd.
    assert (Hsub : exists c, c ∈ tr /\ call_mc_eval c = Some (Some (lc_mc_eval d))).
    { unfold lockdrop_calls in Hd. apply list_elem_of_omap in Hd as (c & Hc' & Hcd).
      exists c. split; [done|]. destruct c; inversion Hcd. done. }
    destruct Hsub as (c & Hc' & Hcm).
    pose proof (proj1 (Forall_forall _ _) Hmc c Hc' _ Hcm) as Hv. by inversion Hv. }
  split.
  { intros l e He.
    destruct (layer_trace_rnn_lookup _ _ _ _ _ _ _ _ _ Htl He) as (R1 & (r & _ & R2) & _).
    split; [done|]. by rewrite R2. }
  cbn [mc_eval rnns set_rnns]. split; [done|]. split; [by rewrite length_fmap|].
  intros l r Hl. apply list_lookup_fmap_Some in Hl as (r0 & -> & _). done.
Qed.

(** C9. With return_h set, forward returns a 4-tuple.  Its raw_outputs are
    the N direct outputs of the recurrent layers in layer order.  Its
    outputs are N tensors: entry l, for l + 1 < N, is the result of the
    inter-layer dropout applied to raw output l; the last entry is the
    result G of the output dropout (probability dropout) applied to the
    last raw output, and G is what the latent and the prior projections of
    the mixture head receive. *)
Theorem return_h_exposes_layer_outputs (return_prob : bool) :
  exists mo hid raws outs s' tr,
    forward h input hidden true return_prob (mkFstate m g cs)
      = inr (Ret4 mo hid raws outs, s') /\
    calls s' = cs ++ tr /\
    length raws = N /\ length outs = N /\ length hid = N /\
    raws = rc_output <$> rnn_calls tr /\
    (forall l e, rnn_calls tr !! l = Some e -> rc_layer e = l) /\
    (forall l, S l < N -> exists raw d,
       raws !! l = Some raw /\ lockdrop_calls tr !! S l = Some d /\
       lc_input d = raw /\
       lc_dropout d = p_or_0 (use_dropout m) (dropouth m) /\
       outs !! l = Some (lc_output d)) /\
    (exists raw d y y',
       raws !! (N - 1) = Some raw /\ lockdrop_calls tr !! N = Some d /\
       lc_input d = raw /\
       lc_dropout d = p_or_0 (use_dropout m) (dropout m) /\
       outs !! (N - 1) = Some (lc_output d) /\
       latent_calls tr = [(lc_output d, y)] /\
       prior_calls tr = [(lc_output d, y')]).
Proof.
  destruct (model_dims_pos h m Hok) as (HN & _ & _ & HNl). fold N in HN.
  destruct (forward_run h m input hidden T B g cs Hok Hin Hhid true return_prob)
    as (ret & s' & tr & tl & emb0 & emb & out & G & lat0 & lat1 & lv & logit & pl &
        Heq & Hc & _ & Htl & _ & Hrnn & Hlock & Hlat & _ & Hpri & _ & Hret & _).
  pose proof (layer_trace_rnn_length _ _ _ _ _ _ _ Htl) as Hrl. fold N in Hrl.
  pose proof (layer_trace_lockdrop_length _ _ _ _ _ _ _ Htl HNl) as Hll. fold N in Hll.
  destruct (lockdrop_positions h m Hok
              (mkLockdropCall emb0 (p_or_0 (use_dropout m) (dropouti m)) (mc_eval m) emb)
              (mkLockdropCall out (p_or_0 (use_dropout m) (dropout m)) (mc_eval m) G)
              (mkLockdropCall lat0 (p_or_0 (use_dropout m) (dropoutl m)) (mc_eval m) lat1)
              (lockdrop_calls tl) Hll) as (P1 & P2 & P3 & P4 & P5).
  fold N in P1, P3, P4, P5. rewrite <- Hlock in P1, P2, P3, P4, P5.
  cbv zeta in Hret. rewrite Hret in Heq.
  eexists _, _, _, _, s', tr. rewrite Hrnn.
  split; [exact Heq|]. split; [exact Hc|].
  split; [by rewrite length_fmap|].
  split. { rewrite length_app, length_fmap, Hll. simpl. lia. }
  split; [by rewrite length_fmap|]. split; [done|].
  split.
  { intros l e He. by destruct (layer_trace_rnn_lookup _ _ _ _ _ _ _ _ _ Htl He). }
  split.
  - intros l Hl.
    destruct (lookup_lt_is_Some_2 (rnn_calls tl) l) as [e He]; [lia|].
    destruct (lookup_lt_is_Some_2 (rnn_calls tl) (S l)) as [e' He']; [lia|].
    destruct (layer_trace_between _ _ _ _ _ _ _ _ _ _ Htl HNl He He')
      as (d & Hd & D1 & D2 & D3 & D4).
    exists (rc_output e), d. rewrite P3 by done.
    split; [by rewrite list_lookup_fmap, He|]. split; [done|]. split; [done|].
    split; [done|].
    rewrite lookup_app_l by (rewrite length_fmap; lia).
    by rewrite list_lookup_fmap, Hd.
  - destruct (rnns m) as [|r todo] eqn:Hr; [unfold N in HN; simpl in HN; lia|].
    destruct (layer_trace_out _ _ _ _ _ _ _ _ Htl HNl) as (e & He & Hout).
    assert (HN1 : length todo = N - 1) by (unfold N; simpl; lia).
    rewrite HN1 in He.
    eexists (rc_output e), _, lat0, pl.
    split; [by rewrite list_lookup_fmap, He|]. split; [exact P4|]. cbn.
    split; [done|]. split; [done|].
    split; [|done].
    rewrite lookup_app_r by (rewrite length_fmap; lia).
    rewrite length_fmap, Hll, Nat.sub_diag. done.
Qed.

(** C10. The masking-active flag that forward hands to embedded_dropout,
    called once on the tokens with probability dropoute, is the
    conjunction of the training mode of the module and use_dropout; in
    evaluation mode it is false whatever dropoute is. *)
Theorem embedded_dropout_flag_is_training_and_use_dropout (return_h return_prob : bool) :
  exists ret s' tr e,
    forward h input hidden return_h return_prob (mkFstate m g cs) = inr (ret, s') /\
    calls s' = cs ++ tr /\
    embedded_calls tr = [e] /\
    ec_input e = input /\ ec_dropout e = dropoute m /\
    ec_usedp e = training m && use_dropout m /\
    (training m = false -> ec_usedp e = false).
Proof.
  destruct (forward_run h m input hidden T B g cs Hok Hin Hhid return_h return_prob)
    as (ret & s' & tr & tl & emb0 & emb & out & G & lat0 & lat1 & lv & logit & pl &
        Heq & Hc & _ & _ & Hemb & _).
  eexists ret, s', tr, _.
  split; [exact Heq|]. split; [exact Hc|]. split; [exact Hemb|]. cbn.
  repeat split. by intros ->.
Qed.

End Calls.

(** ** Construction: weight tying and the counts; init_hidden *)

Lemma bind_raises {S A B} (c : ST S A) (k : A -> ST S B) s x s' e :
  c s = inr (x, s') -> k x s' = inl e -> (c ≫= k) s = inl e.
Proof. intros Hc Hk. unfold mbind, ST_bind. by rewrite Hc. Qed.

Lemma bind_raised {S A B} (c : ST S A) (k : A -> ST S B) s e :
  c s = inl e -> (c ≫= k) s = inl e.
Proof. intros Hc. unfold mbind, ST_bind. by rewrite Hc. Qed.

Lemma new_tensor_negative `{Imports} d ds (s : list tensor * G) :
  (d < 0)%Z -> new_tensor (d :: ds) s = inl RuntimeError.
Proof.
  intros Hd. unfold new_tensor.
  assert (E : mapM (M:=result) dim_of (d :: ds) = inl RuntimeError).
  { rewrite mapM_result_cons.
    assert (Ed : dim_of d = inl RuntimeError).
    { unfold dim_of. destruct (Z.ltb_spec d 0); [reflexivity|lia]. }
    by rewrite Ed. }
  unfold mbind, ST_bind, lift. by rewrite E.
Qed.

Section Tying.
Context `{Imports}.
Variables (a : Args) (h0 : list tensor) (g0 : G).

(** The constructor returns, with the model it built. *)
Lemma init_returns :
  sizes_ok a ->
  exists m h g, RNNModel_init a (h0, g0) = inr (m, (h, g)) /\ built a h m.
Proof.
  intros Ha. destruct (init_post a h0 g0 Ha) as (m & [h g] & Heq & Hb & _).
  by exists m, h, g.
Qed.

(** C3. After construction with weight tying the decoder's weight and the
    embedding table are one heap cell: in every state of the heap the
    decoder reads as its weight what the embedding reads as its table, and
    a write through either name is read back through the other. *)
Theorem tied_decoder_weight_is_embedding_table :
  sizes_ok a -> a_tie_weights a = true ->
  exists m h g,
    RNNModel_init a (h0, g0) = inr (m, (h, g)) /\
    lin_weight (decoder m) = emb_weight (encoder m) /\
    (exists W, h !! emb_weight (encoder m) = Some W /\
               shape W = [Z.to_nat (a_ntoken a); Z.to_nat (a_ninp a)]) /\
    (forall h' : list tensor,
       deref h' (lin_weight (decoder m)) = deref h' (emb_weight (encoder m))) /\
    (forall t, <[emb_weight (encoder m) := t]> h !! lin_weight (decoder m) = Some t) /\
    (forall t, <[lin_weight (decoder m) := t]> h !! emb_weight (encoder m) = Some t).
Proof.
  intros Ha Htie. destruct (init_returns Ha) as (m & h & g & Heq & Hb).
  exists m, h, g. split; [exact Heq|].
  destruct Hb as [_ (E1 & _ & _ & _ & _ & E6) _ Henc _ _ _ _ _ _ Htied].
  rewrite Htie in Htied. rewrite Htied, <- E1, <- E6.
  pose proof (param_ok_lt _ _ _ Henc) as Hlt.
  destruct Henc as (W & HW & HWs & _).
  split; [done|]. split; [by exists W|]. split; [done|].
  split; intros t; by apply list_lookup_insert_eq.
Qed.

(** C7, as the code has it.  The constructor checks neither count.  For
    every layer count, non-positive ones included, and every expert
    count from 0 on it returns a model; with a non-positive layer count
    the recurrent stack of that model is empty.  A negative expert count
    makes the allocation of the prior projection fail in the tensor
    library: the error is its RuntimeError, not a configuration error. *)
Theorem counts_are_not_validated :
  (0 <= a_ntoken a /\ 0 < a_ninp a /\ 0 < a_nhid a /\ 0 < a_nhidlast a)%Z ->
  ((0 <= a_n_experts a)%Z ->
   exists m h g,
     RNNModel_init a (h0, g0) = inr (m, (h, g)) /\
     nlayers m = a_nlayers a /\ n_experts m = a_n_experts a /\
     length (rnns m) = Z.to_nat (a_nlayers a) /\
     ((a_nlayers a <= 0)%Z -> rnns m = []) /\
     out_features (prior m) = Z.to_nat (a_n_experts a)) /\
  ((a_n_experts a < 0)%Z -> RNNModel_init a (h0, g0) = inl RuntimeError).
Proof.
  intros (HV & HD & HHd & HHL). split.
  - intros HE. destruct init_returns as (m & h & g & Heq & Hb); [done|].
    exists m, h, g. split; [exact Heq|].
    destruct Hb as [_ (_ & _ & _ & E4 & E5 & _) _ _ (_ & _ & _ & _ & D5) Hn _ _ _ _ _].
    rewrite D5, E5. repeat split; try done.
    intros Hle. apply nil_length_inv. rewrite Hn. lia.
  - intros HE. unfold RNNModel_init.
    destruct (post_new_Embedding (a_ntoken a) (a_ninp a) h0 g0 (fun _ _ => True))
      as (enc & [h1 g1] & E1 & _); [lia|lia|done|].
    eapply bind_raises; [exact E1|].
    destruct (post_mapM_heap
      (fun l => new_LSTM (if (l =? 0)%Z then a_ninp a else a_nhid a)
                  (if negb (l =? a_nlayers a - 1)%Z then a_nhid a else a_nhidlast a))
      (fun _ _ _ => True) (range (a_nlayers a)) h1 g1) as (rs & [h2 g2] & E2 & _).
    { done. }
    { intros l ha ga _. apply post_new_LSTM.
      - destruct (l =? 0)%Z; lia.
      - destruct (negb _); lia.
      - done. }
    eapply bind_raises; [exact E2|].
    cbv beta zeta. apply bind_raised. unfold new_Linear. apply bind_raised.
    by apply new_tensor_negative.
Qed.

End Tying.

(** C6. For a batch size B, init_hidden returns one pair per layer, as many
    as nlayers; both tensors of the pair of layer l have the shape
    (1, B, width) and only zeros, where width is nhidlast for the last
    layer and nhid for the others. *)
Theorem init_hidden_zero_pairs (m : RNNModel) (B : nat) :
  (0 <= nhid m)%Z -> (0 <= nhidlast m)%Z ->
  exists hs,
    init_hidden m (Z.of_nat B) = inr hs /\
    length hs = Z.to_nat (nlayers m) /\
    forall l, l < Z.to_nat (nlayers m) ->
      exists hl cl,
        hs !! l = Some (hl, cl) /\
        let width := if decide (S l = Z.to_nat (nlayers m))
                     then Z.to_nat (nhidlast m) else Z.to_nat (nhid m) in
        shape hl = [1; B; width] /\ shape cl = [1; B; width] /\
        wf hl /\ wf cl /\
        Forall (fun x => x = 0%R) (data hl) /\ Forall (fun x => x = 0%R) (data cl).
Proof.
  intros Hh Hl. eexists. split; [by apply init_hidden_eq|].
  split; [by rewrite length_fmap, length_seq|].
  intros l Hlt. eexists _, _. split.
  { rewrite list_lookup_fmap, lookup_seq_lt by done. reflexivity. }
  cbv zeta.
  assert (Hw : layer_width m l
               = if decide (S l = Z.to_nat (nlayers m))
                 then Z.to_nat (nhidlast m) else Z.to_nat (nhid m)).
  { unfold layer_width.
    destruct (Z.eqb_spec (Z.of_nat l) (nlayers m - 1)); destruct (decide _); simpl;
      try done; lia. }
  rewrite <- Hw. cbn [shape data zeros].
  repeat split; try apply wf_zeros; apply Forall_replicate; done.
Qed.

(** ** At the example of model.py *)

Lemma mismatch_sizes_ok : sizes_ok mismatch_args.
Proof. unfold sizes_ok, mismatch_args. simpl. lia. Qed.

Lemma no_layer_sizes_ok : sizes_ok no_layer_args.
Proof. unfold sizes_ok, no_layer_args. simpl. lia. Qed.

Lemma no_expert_sizes_ok : sizes_ok no_expert_args.
Proof. unfold sizes_ok, no_expert_args. simpl. lia. Qed.

(** C7 fails on the code: with nlayers = 0 the constructor returns a
    model, whose recurrent stack is empty; with n_experts = 0 it returns a
    model as well. *)
Lemma zero_layers_and_zero_experts_accepted :
  (exists m s, RNNModel_init (H := std_imports) no_layer_args ([], 0) = inr (m, s) /\
               nlayers m = 0%Z /\ rnns m = []) /\
  (exists m s, RNNModel_init (H := std_imports) no_expert_args ([], 0) = inr (m, s) /\
               n_experts m = 0%Z).
Proof.
  split.
  - destruct (init_returns (H := std_imports) no_layer_args [] 0 no_layer_sizes_ok)
      as (m & h & g & Heq & Hb).
    exists m, (h, g). split; [exact Heq|].
    destruct Hb as [_ (_ & _ & _ & E4 & _) _ _ _ Hn _ _ _ _ _].
    split; [exact E4|]. by apply nil_length_inv.
  - destruct (init_returns (H := std_imports) no_expert_args [] 0 no_expert_sizes_ok)
      as (m & h & g & Heq & Hb).
    exists m, (h, g). split; [exact Heq|].
    by destruct Hb as [_ (_ & _ & _ & _ & E5 & _) _ _ _ _ _ _ _ _ _].
Qed.

(** The theorems at the example of model.py *)

Lemma main_ntoken m h : built main_args h m -> Z.to_nat (ntoken m) = 10.
Proof. intros [_ (_ & _ & _ & _ & _ & ->) _ _ _ _ _ _ _ _ _]. reflexivity. Qed.

Lemma main_nlayers m h : built main_args h m -> length (rnns m) = 2.
Proof. intros [_ _ _ _ _ -> _ _ _ _ _]. reflexivity. Qed.

Lemma forward_prob_rows_sum_to_one_witness :
  exists m h g hs ret s',
    RNNModel_init (H := std_imports) main_args ([], 0) = inr (m, (h, g)) /\
    init_hidden m 9 = inr hs /\
    forward h main_input hs false true (mkFstate m g []) = inr (ret, s') /\
    shape (model_output_of ret) = [13; 9; 10] /\
    Forall (fun row => sum_R row = 1%R /\ Forall (fun x => (0 < x)%R) row)
      (chunks (13 * 9) 10 (data (model_output_of ret))).
Proof.
  destruct (main_setup main_args main_args_ok eq_refl)
    as (m & h & g & hs & Hi & Hh & Hb & Hok & Hin & Hhid).
  destruct (forward_prob_rows_sum_to_one h m main_input hs 13 9 g [] Hok Hin Hhid false)
    as (ret & s' & tr & lv & logit & G & pl & Heq & Hsh & _ & Hrows & _).
  rewrite (main_ntoken m h Hb) in Hsh, Hrows.
  exists m, h, g, hs, ret, s'. auto.
Defined.

Lemma forward_output_selected_by_flag_witness :
  exists m h g hs ret s' prob,
    RNNModel_init (H := std_imports) main_args ([], 0) = inr (m, (h, g)) /\
    init_hidden m 9 = inr hs /\
    forward h main_input hs false false (mkFstate m g []) = inr (ret, s') /\
    model_output_of ret = Tensor [13; 9; 10] ((fun p => ln (p + 1e-8))%R <$> prob).
Proof.
  destruct (main_setup main_args main_args_ok eq_refl)
    as (m & h & g & hs & Hi & Hh & Hb & Hok & Hin & Hhid).
  destruct (forward_output_selected_by_flag h m main_input hs 13 9 g [] Hok Hin Hhid
              false false)
    as (ret & s' & tr & lv & logit & G & pl & Heq & _ & _ & _ & Hmo & _).
  rewrite (main_ntoken m h Hb) in Hmo.
  exists m, h, g, hs, ret, s'. eexists. eauto.
Defined.

Lemma inter_layer_dropout_not_after_last_witness :
  exists m h g hs ret s' tr,
    RNNModel_init (H := std_imports) main_args ([], 0) = inr (m, (h, g)) /\
    init_hidden m 9 = inr hs /\
    forward h main_input hs false false (mkFstate m g []) = inr (ret, s') /\
    calls s' = tr /\
    length (rnn_calls tr) = 2 /\ length (lockdrop_calls tr) = 4.
Proof.
  destruct (main_setup main_args main_args_ok eq_refl)
    as (m & h & g & hs & Hi & Hh & Hb & Hok & Hin & Hhid).
  assert (Hud : use_dropout m = true) by (by destruct Hb as [(_ & ? & _) _ _ _ _ _ _ _ _ _ _]).
  destruct (inter_layer_dropout_not_after_last h m main_input hs 13 9 g [] Hok Hin Hhid
              false false Hud)
    as (ret & s' & tr & Heq & Hc & Hr & Hl & _).
  rewrite (main_nlayers m h Hb) in Hr, Hl. simpl in Hc.
  exists m, h, g, hs, ret, s', tr. auto 10.
Defined.

Lemma mc_eval_threaded_into_components_witness :
  exists m h g hs ret s',
    RNNModel_init (H := std_imports) main_args ([], 0) = inr (m, (h, g)) /\
    init_hidden m 9 = inr hs /\
    forward h main_input hs false false (mkFstate m g []) = inr (ret, s') /\
    Forall (fun c => forall v, call_mc_eval c = Some v -> v = Some false) (calls s') /\
    length (rnns (self s')) = 2.
Proof.
  destruct (main_setup main_args main_args_ok eq_refl)
    as (m & h & g & hs & Hi & Hh & Hb & Hok & Hin & Hhid).
  assert (Hmc : mc_eval m = false) by (by destruct Hb as [(_ & _ & ?) _ _ _ _ _ _ _ _ _ _]).
  destruct (mc_eval_threaded_into_components h m main_input hs 13 9 g [] Hok Hin Hhid
              false false)
    as (ret & s' & tr & Heq & Hc & Hall & _ & _ & _ & _ & _ & _ & _ & Hlen & _).
  rewrite Hmc in Hall. rewrite (main_nlayers m h Hb) in Hlen. simpl in Hc.
  exists m, h, g, hs, ret, s'. rewrite Hc. auto.
Defined.

Lemma return_h_exposes_layer_outputs_witness :
  exists m h g hs mo hid raws outs s',
    RNNModel_init (H := std_imports) main_args ([], 0) = inr (m, (h, g)) /\
    init_hidden m 9 = inr hs /\
    forward h main_input hs true false (mkFstate m g [])
      = inr (Ret4 mo hid raws outs, s') /\
    length raws = 2 /\ length outs = 2.
Proof.
  destruct (main_setup main_args main_args_ok eq_refl)
    as (m & h & g & hs & Hi & Hh & Hb & Hok & Hin & Hhid).
  destruct (return_h_exposes_layer_outputs h m main_input hs 13 9 g [] Hok Hin Hhid false)
    as (mo & hid & raws & outs & s' & tr & Heq & _ & Hr & Ho & _).
  rewrite (main_nlayers m h Hb) in Hr, Ho.
  exists m, h, g, hs, mo, hid, raws, outs, s'. auto.
Defined.

Lemma embedded_dropout_flag_is_training_and_use_dropout_witness :
  exists m h g hs ret s' e,
    RNNModel_init (H := std_imports) main_args ([], 0) = inr (m, (h, g)) /\
    init_hidden m 9 = inr hs /\
    forward h main_input hs false false (mkFstate m g []) = inr (ret, s') /\
    embedded_calls (calls s') = [e] /\ ec_usedp e = true.
Proof.
  destruct (main_setup main_args main_args_ok eq_refl)
    as (m & h & g & hs & Hi & Hh & Hb & Hok & Hin & Hhid).
  destruct (embedded_dropout_flag_is_training_and_use_dropout h m main_input hs 13 9 g []
              Hok Hin Hhid false false)
    as (ret & s' & tr & e & Heq & Hc & He & _ & _ & Hu & _).
  destruct Hb as [(Htr & Hud & _) _ _ _ _ _ _ _ _ _ _]. rewrite Htr, Hud in Hu.
  simpl in Hc. rewrite <- Hc in He.
  exists m, h, g, hs, ret, s', e. auto.
Defined.

Lemma tied_decoder_weight_is_embedding_table_witness :
  exists m h g,
    RNNModel_init (H := std_imports) tied_args ([], 0) = inr (m, (h, g)) /\
    forall t, <[emb_weight (encoder m) := t]> h !! lin_weight (decoder m) = Some t.
Proof.
  destruct (tied_decoder_weight_is_embedding_table (H := std_imports) tied_args [] 0
              (proj1 tied_args_ok) eq_refl)
    as (m & h & g & Heq & _ & _ & _ & Hw & _).
  exists m, h, g. auto.
Defined.

Lemma counts_are_not_validated_witness :
  exists m h g,
    RNNModel_init (H := std_imports) no_layer_args ([], 0) = inr (m, (h, g)) /\
    rnns m = [].
Proof.
  assert (Hs : (0 <= a_ntoken no_layer_args /\ 0 < a_ninp no_layer_args /\
                0 < a_nhid no_layer_args /\ 0 < a_nhidlast no_layer_args)%Z).
  { unfold no_layer_args. simpl. lia. }
  destruct (counts_are_not_validated (H := std_imports) no_layer_args [] 0 Hs)
    as [Hpos _].
  destruct Hpos as (m & h & g & Heq & _ & _ & _ & Hnil & _).
  { unfold no_layer_args. simpl. lia. }
  exists m, h, g. split; [exact Heq|]. apply Hnil. unfold no_layer_args. simpl. lia.
Defined.

Lemma init_hidden_zero_pairs_witness :
  exists m h g hs,
    RNNModel_init (H := std_imports) main_args ([], 0) = inr (m, (h, g)) /\
    init_hidden m 9 = inr hs /\ length hs = 2.
Proof.
  destruct (main_setup main_args main_args_ok eq_refl)
    as (m & h & g & hs & Hi & Hh & Hb & Hok & Hin & Hhid).
  destruct Hok as [(Q1 & Q2 & Q3 & _) _ _ _ _ _ _ _].
  destruct (init_hidden_zero_pairs m 9) as (hs' & Hh' & Hlen & _); [lia|lia|].
  destruct Hb as [_ (_ & _ & _ & E4 & _) _ _ _ _ _ _ _ _ _].
  rewrite E4 in Hlen. exists m, h, g, hs'. auto.
Defined.

(** ** Outcomes of a run; the flags of forward *)

Section Outcomes.
Context {S : Type}.


Lemma outcome_bind {A B} (c : ST S A) (k : A -> ST S B) s Q E :
  outcome c s (fun x s' => outcome (k x) s' Q E) E -> outcome (c ≫= k) s Q E.
Proof. unfold outcome, mbind, ST_bind. by destruct (c s) as [e|[x s']]. Qed.

Lemma outcome_lift {A} (r : result A) (s : S) Q E :
  match r with inr x => Q x s | inl e => E e end -> outcome (lift r) s Q E.
Proof. unfold outcome, lift. by destruct r. Qed.

Lemma outcome_mono {A} (c : ST S A) s (Q Q' : A -> S -> Prop) (E E' : exn -> Prop) :
  outcome c s Q E -> (forall x s', Q x s' -> Q' x s') -> (forall e, E e -> E' e) ->
  outcome c s Q' E'.
Proof. unfold outcome. destruct (c s) as [e|[x s']]; auto. Qed.


Lemma outcome_raises {A} (c : ST S A) s e :
  outcome c s (fun _ _ => False) (fun e' => e' = e) -> c s = inl e.
Proof. unfold outcome. destruct (c s) as [e'|[x s']]; [by intros ->|done]. Qed.

Lemma outcome_returned {A} (c : ST S A) s Q E x s' :
  outcome c s Q E -> c s = inr (x, s') -> Q x s'.
Proof. unfold outcome. intros Ho Hc. by rewrite Hc in Ho. Qed.

Lemma wlp_ret {A} (x : A) (s : S) Q : Q x s -> wlp (mret x) s Q.
Proof. done. Qed.

Lemma wlp_bind {A B} (c : ST S A) (k : A -> ST S B) s Q :
  wlp c s (fun x s' => wlp (k x) s' Q) -> wlp (c ≫= k) s Q.
Proof. apply outcome_bind. Qed.

(** Whatever the first computation returns. *)
Lemma wlp_bind_any {A B} (c : ST S A) (k : A -> ST S B) s Q :
  (forall x s', wlp (k x) s' Q) -> wlp (c ≫= k) s Q.
Proof.
  intros Hk. apply wlp_bind. unfold wlp, outcome. destruct (c s) as [e|[x s']]; [done|].
  apply Hk.
Qed.

Lemma wlp_lift {A} (r : result A) (s : S) Q :
  (forall x, r = inr x -> Q x s) -> wlp (lift r) s Q.
Proof. intros Hr. apply outcome_lift. destruct r; [done|]. by apply Hr. Qed.

Lemma wlp_mono {A} (c : ST S A) s (Q Q' : A -> S -> Prop) :
  wlp c s Q -> (forall x s', Q x s' -> Q' x s') -> wlp c s Q'.
Proof. intros Hc HQ. eapply outcome_mono; [exact Hc|exact HQ|done]. Qed.

Lemma wlp_fmap {A B} (f : A -> B) (c : ST S A) s Q :
  wlp c s (fun x s' => Q (f x) s') -> wlp (f <$> c) s Q.
Proof. unfold wlp, outcome, fmap, ST_fmap. by destruct (c s) as [e|[x s']]. Qed.





End Outcomes.


Section Flags.
Context `{Imports}.
Variables (h : list tensor) (input : ltensor) (hidden : list hpair) (s : fstate).




End Flags.

(** ** The hidden state, the dropout schedule and short hidden states *)


Lemma set_rnn_mc_eval_twice r v : set_rnn_mc_eval (set_rnn_mc_eval r v) v = set_rnn_mc_eval r v.
Proof. done. Qed.



Section ForwardState.
Context `{ImportsOk}.





Section NextCall.
Variables (h : list tensor) (m : RNNModel) (input : ltensor) (hidden : list hpair).
Variables (T B : nat) (g : G) (cs : list call).
Hypothesis Hok : model_ok h m.
Hypothesis Hin : input_ok m input T B.
Hypothesis Hhid : hidden_ok m hidden B.

Let N := length (rnns m).




End NextCall.

Section Short.
Variables (h : list tensor) (m : RNNModel) (input : ltensor) (hidden : list hpair).
Variables (T B : nat) (g : G) (cs : list call).


End Short.
End ForwardState.

(** ** Where the constructor puts the parameters *)

Lemma extends_by_refl h : extends_by 0 h h.
Proof. split; [done|lia]. Qed.

Lemma extends_by_trans n k h1 h2 h3 :
  extends_by n h1 h2 -> extends_by k h2 h3 -> extends_by (n + k) h1 h3.
Proof. intros [P1 L1] [P2 L2]. split; [by etrans|lia]. Qed.

Lemma extends_by_snoc h t : extends_by 1 h (h ++ [t]).
Proof. split; [by apply prefix_app_r|]. rewrite length_app. simpl. lia. Qed.

Lemma extends_by_insert n h h' l t :
  extends_by n h h' -> length h <= l -> extends_by n h (<[l := t]> h').
Proof.
  intros [[k ->] Hl] Hle. split; [|by rewrite length_insert].
  exists (<[l - length h := t]> k). by apply insert_app_r_alt.
Qed.

Lemma extends_by_lookup n h h' l :
  extends_by n h h' -> l < length h -> h' !! l = h !! l.
Proof. intros [[k ->] _] Hl. by apply lookup_app_l. Qed.

(** Three writes in a row, as init_weights makes them. *)
Lemma three_writes (h : list tensor) (ew b dw : nat) (T1 T2 T3 t1 t2 t3 : tensor) :
  h !! ew = Some t1 ->
  <[ew := T1]> h !! b = Some t2 ->
  <[b := T2]> (<[ew := T1]> h) !! dw = Some t3 ->
  b <> ew -> b <> dw ->
  let h' := <[dw := T3]> (<[b := T2]> (<[ew := T1]> h)) in
  length h' = length h /\
  h' !! b = Some T2 /\ h' !! dw = Some T3 /\
  h' !! ew = Some (if decide (ew = dw) then T3 else T1) /\
  forall l, l <> ew -> l <> b -> l <> dw -> h' !! l = h !! l.
Proof.
  intros H1 H2 H3 Hbe Hbd h'. unfold h'.
  apply lookup_lt_Some in H1, H2, H3. rewrite !length_insert in *.
  split; [done|]. split.
  { rewrite list_lookup_insert_ne by done. apply list_lookup_insert_eq.
    by rewrite length_insert. }
  split.
  { apply list_lookup_insert_eq. by rewrite !length_insert. }
  split.
  { destruct (decide (ew = dw)) as [->|Hne].
    - apply list_lookup_insert_eq. by rewrite !length_insert.
    - rewrite !list_lookup_insert_ne by done. by apply list_lookup_insert_eq. }
  intros l L1 L2 L3. by rewrite !list_lookup_insert_ne.
Qed.



Section Layout.
Context `{Imports}.


Lemma wlp_new_tensor dims (h : list tensor) (g : G) Q :
  (forall sh, Q (length h) (h ++ [zeros sh], g)) -> wlp (new_tensor dims) (h, g) Q.
Proof.
  intros HQ. unfold new_tensor. apply wlp_bind, wlp_lift. intros sh _.
  unfold wlp, outcome, new_param. apply HQ.
Qed.

Lemma uniform__eq l lo hi (h : list tensor) (g : G) t :
  h !! l = Some t ->
  uniform_ l lo hi (h, g)
  = inr (tt, (<[l := Tensor (shape t)
                       (fill (numel (shape t))
                          (fun i => lo + (hi - lo) * fst (rand g) i)%R)]> h,
              snd (rand g))).
Proof.
  intros Ht. unfold uniform_, deref. rewrite Ht. cbn. by destruct (rand g).
Qed.

Lemma normal__eq l (h : list tensor) (g : G) t :
  h !! l = Some t ->
  normal_ l (h, g)
  = inr (tt, (<[l := Tensor (shape t) (fill (numel (shape t)) (fst (randn g)))]> h,
              snd (randn g))).
Proof.
  intros Ht. unfold normal_, deref. rewrite Ht. cbn. by destruct (randn g).
Qed.

Lemma fill__eq l v (h : list tensor) (g : G) t :
  h !! l = Some t ->
  fill_ l v (h, g)
  = inr (tt, (<[l := Tensor (shape t) (replicate (numel (shape t)) v)]> h, g)).
Proof. intros Ht. unfold fill_, deref. by rewrite Ht. Qed.

(** An in-place initialiser writes one cell. *)
Lemma wlp_uniform_ l lo hi (h : list tensor) (g : G) Q :
  (forall t, h !! l = Some t ->
     Q tt (<[l := Tensor (shape t)
                     (fill (numel (shape t))
                        (fun i => lo + (hi - lo) * fst (rand g) i)%R)]> h,
           snd (rand g))) ->
  wlp (uniform_ l lo hi) (h, g) Q.
Proof.
  intros HQ. unfold wlp, outcome.
  destruct (h !! l) as [t|] eqn:Ht.
  - rewrite (uniform__eq _ _ _ _ _ t Ht). by apply HQ.
  - unfold uniform_, deref. by rewrite Ht.
Qed.

Lemma wlp_normal_ l (h : list tensor) (g : G) Q :
  (forall t, h !! l = Some t ->
     Q tt (<[l := Tensor (shape t) (fill (numel (shape t)) (fst (randn g)))]> h,
           snd (randn g))) ->
  wlp (normal_ l) (h, g) Q.
Proof.
  intros HQ. unfold wlp, outcome.
  destruct (h !! l) as [t|] eqn:Ht.
  - rewrite (normal__eq _ _ _ t Ht). by apply HQ.
  - unfold normal_, deref. by rewrite Ht.
Qed.

Lemma wlp_fill_ l v (h : list tensor) (g : G) Q :
  (forall t, h !! l = Some t ->
     Q tt (<[l := Tensor (shape t) (replicate (numel (shape t)) v)]> h, g)) ->
  wlp (fill_ l v) (h, g) Q.
Proof.
  intros HQ. unfold wlp, outcome.
  destruct (h !! l) as [t|] eqn:Ht.
  - rewrite (fill__eq _ _ _ _ t Ht). by apply HQ.
  - unfold fill_, deref. by rewrite Ht.
Qed.

Lemma wlp_new_Embedding n d (h : list tensor) (g : G) :
  wlp (new_Embedding n d) (h, g)
    (fun e s' => emb_weight e = length h /\ extends_by 1 h (fst s')).
Proof.
  unfold new_Embedding. apply wlp_bind, wlp_new_tensor. intros sh.
  apply wlp_bind, wlp_normal_. intros t Ht. apply wlp_ret. cbn.
  split; [done|]. apply extends_by_insert; [apply extends_by_snoc|done].
Qed.

Lemma wlp_new_Linear inp out bias (h : list tensor) (g : G) :
  wlp (new_Linear inp out bias) (h, g)
    (fun lin s' =>
       lin_weight lin = length h /\
       lin_bias lin = (if bias then Some (S (length h)) else None) /\
       in_features lin = Z.to_nat inp /\ out_features lin = Z.to_nat out /\
       extends_by (if bias then 2 else 1) h (fst s')).
Proof.
  unfold new_Linear. apply wlp_bind, wlp_new_tensor. intros sh.
  apply wlp_bind. destruct bias.
  - apply wlp_fmap, wlp_new_tensor. intros sh'.
    apply wlp_bind, wlp_lift. intros bound _.
    apply wlp_bind, wlp_uniform_. intros t Ht.
    apply wlp_bind, wlp_uniform_. intros t' Ht'.
    apply wlp_ret. cbn. rewrite length_app. cbn. rewrite Nat.add_1_r.
    repeat (split; [done|]).
    apply extends_by_insert; [apply extends_by_insert|lia]; [|done].
    eapply (extends_by_trans 1 1); apply extends_by_snoc.
  - apply wlp_ret.
    apply wlp_bind, wlp_lift. intros bound _.
    apply wlp_bind, wlp_uniform_. intros t Ht.
    apply wlp_bind, wlp_ret. apply wlp_ret. cbn.
    repeat (split; [done|]).
    apply extends_by_insert; [apply extends_by_snoc|done].
Qed.

Lemma wlp_new_LSTM inp hid (h : list tensor) (g : G) :
  wlp (new_LSTM inp hid) (h, g)
    (fun r s' => rnn_cells r = seq (length h) 4 /\ extends_by 4 h (fst s')).
Proof.
  unfold new_LSTM.
  apply wlp_bind, wlp_new_tensor. intros s1.
  apply wlp_bind, wlp_new_tensor. intros s2.
  apply wlp_bind, wlp_new_tensor. intros s3.
  apply wlp_bind, wlp_new_tensor. intros s4.
  apply wlp_bind, wlp_lift. intros stdv _.
  apply wlp_bind, wlp_uniform_. intros t1 Ht1.
  apply wlp_bind, wlp_uniform_. intros t2 Ht2.
  apply wlp_bind, wlp_uniform_. intros t3 Ht3.
  apply wlp_bind, wlp_uniform_. intros t4 Ht4.
  apply wlp_ret. unfold rnn_cells.
  cbn [weight_ih weight_hh bias_ih bias_hh fst]. rewrite !length_app. cbn [length].
  split; [cbn; repeat f_equal; lia|].
  do 4 (apply extends_by_insert; [|lia]).
  eapply (extends_by_trans 3 1); [|apply extends_by_snoc].
  eapply (extends_by_trans 2 1); [|apply extends_by_snoc].
  eapply (extends_by_trans 1 1); apply extends_by_snoc.
Qed.

Lemma wlp_mapM_LSTM {A} (f : A -> ST (list tensor * G) Recurrent) (xs : list A) :
  (forall x h g,
     wlp (f x) (h, g)
       (fun r s' => rnn_cells r = seq (length h) 4 /\ extends_by 4 h (fst s'))) ->
  forall h g,
    wlp (mapM (M:=ST (list tensor * G)) f xs) (h, g)
      (fun rs s' =>
         length rs = length xs /\
         concat (rnn_cells <$> rs) = seq (length h) (4 * length rs) /\
         extends_by (4 * length rs) h (fst s')).
Proof.
  intros Hf. induction xs as [|x xs IH]; intros h g.
  - apply wlp_ret. cbn. split; [done|]. split; [done|]. apply extends_by_refl.
  - rewrite mapM_ST_cons. apply wlp_bind.
    eapply wlp_mono; [apply Hf|]. intros r [h1 g1] [Hr E1]. cbn [fst] in E1.
    apply wlp_bind. eapply wlp_mono; [apply IH|].
    intros rs [h2 g2] (Hl & Hrs & E2). cbn [fst] in E2.
    apply wlp_ret. cbn [fst length].
    replace (4 * S (length rs)) with (4 + 4 * length rs) by lia.
    split; [by rewrite Hl|]. split.
    + rewrite fmap_cons. cbn [concat]. rewrite Hr, Hrs, seq_app.
      destruct E1 as [_ ->]. done.
    + by eapply extends_by_trans.
Qed.

Lemma wlp_init_weights enc dec (h : list tensor) (g : G) Q :
  (forall b t1 t2 t3,
     lin_bias dec = Some b -> h !! emb_weight enc = Some t1 ->
     let T1 := Tensor (shape t1)
                 (fill (numel (shape t1))
                    (fun i => - / 10 + (/ 10 - - / 10) * fst (rand g) i)%R) in
     let T2 := Tensor (shape t2) (replicate (numel (shape t2)) 0%R) in
     let T3 := Tensor (shape t3)
                 (fill (numel (shape t3))
                    (fun i => - / 10 + (/ 10 - - / 10) * fst (rand (snd (rand g))) i)%R) in
     <[emb_weight enc := T1]> h !! b = Some t2 ->
     <[b := T2]> (<[emb_weight enc := T1]> h) !! lin_weight dec = Some t3 ->
     Q tt (<[lin_weight dec := T3]> (<[b := T2]> (<[emb_weight enc := T1]> h)),
           snd (rand (snd (rand g))))) ->
  wlp (init_weights enc dec) (h, g) Q.
Proof.
  intros HQ. unfold init_weights.
  apply wlp_bind, wlp_uniform_. intros t1 Ht1.
  apply wlp_bind. destruct (lin_bias dec) as [b|] eqn:Hb; [|done].
  apply wlp_fill_. intros t2 Ht2.
  apply wlp_uniform_. intros t3 Ht3.
  by apply (HQ b t1 t2 t3).
Qed.

(** Where the constructor puts the parameters. *)
Lemma init_layout (a : Args) (h0 : list tensor) (g0 : G) :
  wlp (RNNModel_init a) (h0, g0) (fun m s' => placed a h0 (fst s') m).
Proof.
  unfold RNNModel_init.
  apply wlp_bind. eapply wlp_mono; [apply wlp_new_Embedding|].
  intros enc [h1 g1] [Henc E1]. cbn [fst] in E1.
  apply wlp_bind. eapply wlp_mono.
  { apply wlp_mapM_LSTM. intros l ha ga. apply wlp_new_LSTM. }
  intros rs0 [h2 g2] (_ & Hrs0 & E2). cbn [fst] in E2.
  set (rs := if Req_dec_T (a_wdrop a) 0 then rs0
             else (fun rnn => WeightDrop rnn (a_wdrop a)) <$> rs0).
  assert (Hlen : length rs = length rs0).
  { unfold rs. destruct (Req_dec_T _ _); [done|by rewrite length_fmap]. }
  assert (Hrs : concat (rnn_cells <$> rs) = seq (S (length h0)) (4 * length rs)).
  { rewrite Hlen. destruct E1 as [_ E1]. rewrite E1, Nat.add_1_r in Hrs0.
    rewrite <- Hrs0. unfold rs. destruct (Req_dec_T _ _); [done|].
    by rewrite <- list_fmap_compose. }
  apply wlp_bind. eapply wlp_mono; [apply wlp_new_Linear|].
  intros pri [h3 g3] (Pw & Pb & Pi & Po & E3). cbn [fst] in E3.
  apply wlp_bind. eapply wlp_mono; [apply wlp_new_Linear|].
  intros lat [h4 g4] (Lw & Lb & Li & Lo & E4). cbn [fst] in E4.
  apply wlp_bind. eapply wlp_mono; [apply wlp_new_Linear|].
  intros dec0 [h5 g5] (Dw & Db & Di & Do & E5). cbn [fst] in E5.
  set (dec := if a_tie_weights a
              then mkLinear (in_features dec0) (out_features dec0)
                     (emb_weight enc) (lin_bias dec0)
              else dec0).
  assert (L1 : length h1 = length h0 + 1) by (by destruct E1).
  assert (L2 : length h2 = length h0 + 4 * length rs + 1) by (destruct E2; lia).
  assert (L3 : length h3 = length h0 + 4 * length rs + 2) by (destruct E3; lia).
  assert (L4 : length h4 = length h0 + 4 * length rs + 4) by (destruct E4; lia).
  assert (E05 : extends_by (6 + 4 * length rs) h0 h5).
  { replace (6 + 4 * length rs) with (1 + 4 * length rs0 + 1 + 2 + 2) by lia.
    eauto using extends_by_trans. }
  assert (Hdb : lin_bias dec = Some (length h0 + 4 * length rs + 5)).
  { unfold dec. destruct (a_tie_weights a); cbn [lin_bias]; rewrite Db; f_equal; lia. }
  assert (Hdw : lin_weight dec
                = if a_tie_weights a then length h0 else length h0 + 4 * length rs + 4).
  { unfold dec. destruct (a_tie_weights a); cbn [lin_weight]; [done|lia]. }
  apply wlp_bind, wlp_init_weights.
  intros b t1 t2 t3 Hb Ht1 T1 T2 T3 Ht2 Ht3.
  assert (Eb : b = length h0 + 4 * length rs + 5) by congruence. subst b.
  assert (Hne1 : length h0 + 4 * length rs + 5 <> emb_weight enc) by lia.
  assert (Hne2 : length h0 + 4 * length rs + 5 <> lin_weight dec).
  { rewrite Hdw. destruct (a_tie_weights a); lia. }
  destruct (three_writes h5 _ _ _ T1 T2 T3 t1 t2 t3 Ht1 Ht2 Ht3 Hne1 Hne2)
    as (W0 & W1 & W2 & W3 & _).
  apply wlp_ret. cbn [fst].
  constructor; cbn [rnns encoder prior latent decoder]; fold rs; fold dec.
  - apply extends_by_insert;
      [apply extends_by_insert; [apply extends_by_insert; [exact E05|lia]|lia]|].
    rewrite Hdw. destruct (a_tie_weights a); lia.
  - done.
  - done.
  - split; [lia|done].
  - split; [lia|]. rewrite Lb. f_equal. lia.
  - done.
  - done.
  - exists T2. split; [done|]. unfold T2. cbn [data shape]. done.
  - exists (if decide (emb_weight enc = lin_weight dec) then T3 else T1).
    split; [done|]. destruct (decide _); [by exists (snd (rand g5))|by exists g5].
  - exists T3. split; [done|]. by exists (snd (rand g5)).
Qed.

End Layout.

(** ** What the constructor builds; init_weights; init_hidden *)


Section Built.
Context `{Imports}.


Section Init.
Variables (a : Args) (h0 : list tensor) (g0 : G).
Hypothesis Ha : sizes_ok a.





End Init.


End Built.


Section Compose.
Context `{ImportsOk}.


End Compose.

(** ** Log rows; one expert *)



Section RealRows.
#[local] Open Scope R_scope.










End RealRows.

Section Output.
Context `{ImportsOk}.
Variables (h : list tensor) (m : RNNModel) (input : ltensor) (hidden : list hpair).
Variables (T B : nat) (g : G) (cs : list call).
Hypothesis Hok : model_ok h m.
Hypothesis Hin : input_ok m input T B.
Hypothesis Hhid : hidden_ok m hidden B.

Let V := Z.to_nat (ntoken m).



End Output.

(** ** The output head *)

Section Head.
Context `{Imports}.






End Head.

Section HeadValues.
Context `{ImportsOk}.
Variables (h : list tensor) (m : RNNModel) (input : ltensor) (hidden : list hpair).
Variables (T B : nat) (g : G) (cs : list call).
Hypothesis Hok : model_ok h m.
Hypothesis Hin : input_ok m input T B.
Hypothesis Hhid : hidden_ok m hidden B.


End HeadValues.

(** ** The further theorems at the example of model.py *)


















(** ** The dimensions of a model that the constructor returned *)

Lemma wlp_conj {S A} (c : ST S A) (s : S) (Q1 Q2 : A -> S -> Prop) :
  wlp c s Q1 -> wlp c s Q2 -> wlp c s (fun x s' => Q1 x s' /\ Q2 x s').
Proof. unfold wlp, outcome. by destruct (c s) as [e|[x s']]. Qed.

(** The sizes that [torch.Tensor(d1, ..., dk)] accepted are not negative. *)
Lemma mapM_dim_of_inv (dims : list Z) (sh : list nat) :
  mapM (M:=result) dim_of dims = inr sh ->
  Forall (fun d => (0 <= d)%Z) dims /\ sh = Z.to_nat <$> dims.
Proof.
  revert sh. induction dims as [|d dims IH]; intros sh Hsh.
  - assert (sh = []) as -> by (by inversion Hsh). split; [apply Forall_nil_2|done].
  - rewrite mapM_result_cons in Hsh.
    assert (Ed : dim_of d = if (d <? 0)%Z then inl RuntimeError else inr (Z.to_nat d))
      by (unfold dim_of; by destruct (d <? 0)%Z).
    rewrite Ed in Hsh. destruct (Z.ltb_spec d 0) as [Hd|Hd]; [by inversion Hsh|].
    destruct (mapM (M:=result) dim_of dims) as [e|sh'] eqn:Hm; [by inversion Hsh|].
    destruct (IH sh' eq_refl) as [Hall ->].
    assert (sh = Z.to_nat d :: (Z.to_nat <$> dims)) as -> by (by inversion Hsh).
    split; [by constructor|done].
Qed.

Lemma length_fill n (f : nat -> R) : length (fill n f) = n.
Proof. unfold fill. by rewrite length_fmap, length_seq. Qed.

(** An in-place write keeps the shape of every cell. *)
Lemma param_ok_write (h : list tensor) l sh l' t d :
  param_ok h l sh -> h !! l' = Some t -> length d = numel (shape t) ->
  param_ok (<[l' := Tensor (shape t) d]> h) l sh.
Proof.
  intros (t0 & Ht0 & Hs & Hw) Ht Hd.
  destruct (decide (l = l')) as [->|Hne].
  - exists (Tensor (shape t) d). rewrite list_lookup_insert_eq by (by eapply lookup_lt_Some).
    simplify_eq. done.
  - exists t0. by rewrite list_lookup_insert_ne.
Qed.

Lemma param_ok_extends n (h h' : list tensor) l sh :
  extends_by n h h' -> param_ok h l sh -> param_ok h' l sh.
Proof.
  intros He (t & Ht & Hs & Hw). exists t. split; [|done].
  rewrite (extends_by_lookup n h h' l He); [done|by eapply lookup_lt_Some].
Qed.

Section Dimensions.
Context `{Imports}.

Lemma wlp_new_tensor_dims dims (h : list tensor) (g : G) Q :
  (forall sh, mapM (M:=result) dim_of dims = inr sh -> Q (length h) (h ++ [zeros sh], g)) ->
  wlp (new_tensor dims) (h, g) Q.
Proof.
  intros HQ. unfold new_tensor. apply wlp_bind, wlp_lift. intros sh Hsh.
  unfold wlp, outcome, new_param. by apply HQ.
Qed.

(** [nn.Embedding(n, d)] returned: its table is a new cell of shape
    (n, d), and neither size is negative. *)
Lemma wlp_new_Embedding_dims n d (h : list tensor) (g : G) :
  wlp (new_Embedding n d) (h, g)
    (fun e s' =>
       e = mkEmbedding (Z.to_nat n) (Z.to_nat d) (length h) /\
       (0 <= n)%Z /\ (0 <= d)%Z /\
       param_ok (fst s') (length h) [Z.to_nat n; Z.to_nat d]).
Proof.
  unfold new_Embedding. apply wlp_bind, wlp_new_tensor_dims. intros sh Hsh.
  destruct (mapM_dim_of_inv _ _ Hsh) as [Hall ->].
  apply Forall_cons in Hall as [Hn Hall]. apply Forall_cons in Hall as [Hd _].
  apply wlp_bind, wlp_normal_. intros t Ht. apply wlp_ret. cbn [fst].
  split; [done|]. split; [done|]. split; [done|].
  rewrite lookup_app_r, Nat.sub_diag in Ht by done. cbn in Ht. simplify_eq.
  exists (Tensor (shape (zeros (Z.to_nat <$> [n; d])))
            (fill (numel (shape (zeros (Z.to_nat <$> [n; d])))) (fst (randn g)))).
  split.
  { apply list_lookup_insert_eq. rewrite length_app. cbn. lia. }
  split; [done|]. unfold wf. cbn [data shape]. apply length_fill.
Qed.

(** [nn.Linear(inp, out, bias)] returned: neither size is negative. *)
Lemma wlp_new_Linear_dims inp out bias (h : list tensor) (g : G) :
  wlp (new_Linear inp out bias) (h, g) (fun _ _ => (0 <= out)%Z /\ (0 <= inp)%Z).
Proof.
  unfold new_Linear. apply wlp_bind, wlp_new_tensor_dims. intros sh Hsh.
  destruct (mapM_dim_of_inv _ _ Hsh) as [Hall _].
  apply Forall_cons in Hall as [Ho Hall]. apply Forall_cons in Hall as [Hi _].
  do 4 (apply wlp_bind_any; intros ? ?). by apply wlp_ret.
Qed.

(** The sizes of the embedding, of the latent projection and of the decoder
    in a model that the constructor returned, and the table of the
    embedding. *)
Lemma init_dims (a : Args) (h0 : list tensor) (g0 : G) :
  wlp (RNNModel_init a) (h0, g0)
    (fun m s' =>
       ((0 <= a_ntoken a)%Z /\ (0 <= a_ninp a)%Z /\ (0 <= a_n_experts a)%Z) /\
       encoder m = mkEmbedding (Z.to_nat (a_ntoken a)) (Z.to_nat (a_ninp a)) (length h0) /\
       (in_features (decoder m) = Z.to_nat (a_ninp a) /\
        out_features (decoder m) = Z.to_nat (a_ntoken a) /\
        out_features (latent m) = Z.to_nat (a_n_experts a * a_ninp a)) /\
       (ninp m = a_ninp a /\ n_experts m = a_n_experts a) /\
       param_ok (fst s') (length h0) [Z.to_nat (a_ntoken a); Z.to_nat (a_ninp a)]).
Proof.
  unfold RNNModel_init.
  apply wlp_bind. eapply wlp_mono; [apply wlp_new_Embedding_dims|].
  intros enc [h1 g1] (-> & Hnt & Hni & P1). cbn [fst] in P1.
  apply wlp_bind. eapply wlp_mono.
  { apply wlp_mapM_LSTM. intros l ha ga. apply wlp_new_LSTM. }
  intros rs0 [h2 g2] (_ & _ & E2). cbn [fst] in E2.
  apply wlp_bind. eapply wlp_mono; [apply wlp_conj; [apply wlp_new_Linear|apply wlp_new_Linear_dims]|].
  intros pri [h3 g3] [(_ & _ & _ & _ & E3) [Hne _]]. cbn [fst] in E3.
  apply wlp_bind. eapply wlp_mono; [apply wlp_new_Linear|].
  intros lat [h4 g4] (_ & _ & _ & Lo & E4). cbn [fst] in E4.
  apply wlp_bind. eapply wlp_mono; [apply wlp_new_Linear|].
  intros dec0 [h5 g5] (_ & _ & Di & Do & E5). cbn [fst] in E5.
  assert (P5 : param_ok h5 (length h0) [Z.to_nat (a_ntoken a); Z.to_nat (a_ninp a)]).
  { eauto using param_ok_extends. }
  apply wlp_bind, wlp_init_weights.
  intros b t1 t2 t3 Hb Ht1 T1 T2 T3 Ht2 Ht3.
  apply wlp_ret. cbn [fst encoder decoder latent ninp n_experts].
  split; [done|]. split; [done|]. split.
  { by destruct (a_tie_weights a). }
  split; [done|].
  apply param_ok_write; [|exact Ht3|apply length_fill].
  apply param_ok_write; [|exact Ht2|apply length_replicate].
  apply param_ok_write; [exact P5|exact Ht1|apply length_fill].
Qed.

Section Tied.
Variables (a : Args) (h0 : list tensor) (g0 : G).
Variables (m : RNNModel) (h : list tensor) (g : G).

(** C2. Weight tying never yields a model of mismatched dimensions.  The
    embedding dimension and the per-expert latent dimension are the one
    argument ninp of the constructor, which has no other argument for
    either, so the condition under which a rejection is asked for cannot
    arise.  Whatever
    the arguments and the heap are, a model that the constructor returns
    with tie_weights has an embedding of dimension ninp; its latent
    projection produces n_experts vectors of that dimension, which forward
    views as rows of width ninp; its decoder reads rows of that dimension
    and produces one logit per row of the embedding table; and the weight
    of the decoder is the embedding table, one tensor of the shape
    (ntoken, ninp) that both modules need.  So no model is produced in
    which the two dimensions differ. *)
Theorem tied_model_dimensions_agree :
  a_tie_weights a = true ->
  RNNModel_init a (h0, g0) = inr (m, (h, g)) ->
  Z.of_nat (embedding_dim (encoder m)) = ninp m /\
  ninp m = a_ninp a /\
  out_features (latent m) = Z.to_nat (n_experts m) * embedding_dim (encoder m) /\
  in_features (decoder m) = embedding_dim (encoder m) /\
  out_features (decoder m) = num_embeddings (encoder m) /\
  lin_weight (decoder m) = emb_weight (encoder m) /\
  param_ok h (emb_weight (encoder m))
    [num_embeddings (encoder m); embedding_dim (encoder m)] /\
  param_ok h (lin_weight (decoder m)) [out_features (decoder m); in_features (decoder m)].
Proof.
  intros Htie Heq.
  pose proof (outcome_returned _ _ _ _ _ _ (init_dims a h0 g0) Heq)
    as ((Hnt & Hni & Hne) & Henc & (Di & Do & Lo) & (Mi & Me) & P).
  pose proof (outcome_returned _ _ _ _ _ _ (init_layout a h0 g0) Heq) as Hp.
  destruct Hp as [_ Pe _ _ _ [Pd _] _ _ _ _]. rewrite Htie in Pd.
  cbn [fst] in P. rewrite Pd, Pe, Di, Do, Lo, Mi, Me, Henc.
  cbn [embedding_dim num_embeddings emb_weight].
  split; [lia|]. split; [done|]. split; [by apply Z2Nat.inj_mul|].
  done.
Qed.

End Tied.
End Dimensions.

Lemma tied_model_dimensions_agree_witness :
  exists m h g,
    RNNModel_init (H := std_imports) mismatch_args ([], 0) = inr (m, (h, g)) /\
    embedding_dim (encoder m) = 2 /\ in_features (decoder m) = 2 /\
    out_features (latent m) = 10 * 2 /\
    lin_weight (decoder m) = emb_weight (encoder m).
Proof.
  destruct (init_returns (H := std_imports) mismatch_args [] 0 mismatch_sizes_ok)
    as (m & h & g & Heq & Hb).
  destruct (tied_model_dimensions_agree (H := std_imports) mismatch_args [] 0 m h g
              eq_refl Heq)
    as (He & Hn & Hl & Hd & _ & Hw & _).
  assert (E : embedding_dim (encoder m) = 2).
  { rewrite Hn in He. change (a_ninp mismatch_args) with 2%Z in He. lia. }
  assert (N : n_experts m = 10%Z).
  { by destruct Hb as [_ (_ & _ & _ & _ & -> & _) _ _ _ _ _ _ _ _ _]. }
  rewrite N, E in Hl. rewrite E in Hd.
  exists m, h, g. auto 10.
Defined.

(** ** Weight tying and the exceptions of the constructor *)



Section TieFlag.
Context `{Imports}.



End TieFlag.
